(** * Unitree Go2 constants: actuator gains, collision overrides, action scale

    A shallow embedding of [mjlab/asset_zoo/robots/unitree_go2/go2_constants.py].
    Python floats are IEEE-754 binary64 numbers and are embedded as Rocq's
    primitive floats, so every constant below is the very number the Python
    module holds; Python ints are [Z]; [dict] objects are association lists
    where declaration order decides (override mappings) and [gmap]s where it
    does not (the action-scale map).  Names are strings of 8-bit
    characters.  What the module imports from the rest of mjlab (the
    reflected-inertia helper, the configuration classes, pattern matching
    and override resolution) is modelled from the written specification and
    marked as such. *)

From Stdlib Require Import ZArith QArith Floats Ascii String List Bool Reals Lra Lia.
From Stdlib Require Import Qreals Qabs Machin.
From stdpp Require Import base option list strings gmap.

Set Warnings "-inexact-float,-clear-no-such-hyp".
Set Default Proof Using "Type".

(** ** Exceptions and fallible computations *)

(** The error taxonomy of the specification (section 7), the failure of
    override resolution that its section 4.3 words as "no override defined
    for matched element", a malformed pattern, and the two Python exceptions
    that the constants module itself can raise. *)
Inductive error : Type :=
| DomainError
| UnmatchedElementError
| OverrideConflictError
| MissingDependentValueError
| NoOverrideError
| PatternError
| AssertionError
| ZeroDivisionError.

Inductive result (A : Type) : Type :=
| Ok (a : A)
| Err (e : error).
Arguments Ok {A} a.
Arguments Err {A} e.

#[global] Instance result_ret : MRet result := fun A a => Ok a.

#[global] Instance result_bind : MBind result := fun A B k r =>
  match r with
  | Ok a => k a
  | Err e => Err e
  end.

(** A computation that returned, as opposed to one that raised. *)
Definition succeeds {A : Type} (r : result A) : Prop :=
  match r with
  | Ok _ => True
  | Err _ => False
  end.

Definition raises {A : Type} (r : result A) : Prop :=
  match r with
  | Ok _ => False
  | Err _ => True
  end.

(** The value of a module-level binding whose right-hand side returned. *)
Definition value {A : Type} (r : result A) : succeeds r -> A :=
  match r as r0 return succeeds r0 -> A with
  | Ok a => fun _ => a
  | Err _ => fun H => match H with end
  end.

Fixpoint foldM {A S : Type} (f : S -> A -> result S) (l : list A) (s : S)
  : result S :=
  match l with
  | [] => Ok s
  | x :: l' => s' ← f s x; foldM f l' s'
  end.

(** ** Python floats *)

Module PyFloat.

Local Open Scope float_scope.

(** [float(n)] for a Python int: the correctly rounded binary64 value. *)
Definition of_int (n : Z) : float :=
  SF2Prim (binary_normalize prec emax n 0 false).

(** [x ** 2]: CPython hands the operation to the C library's [pow]; the
    square is taken here as the correctly rounded product.  Where the
    product overflows this gives an infinity and CPython raises
    [OverflowError]; no square of the constants module comes near that. *)
Definition sq (x : float) : float := x * x.

(** [x / y], which raises [ZeroDivisionError] when [y == 0] (either zero). *)
Definition truediv (x y : float) : result float :=
  if y =? 0 then Err ZeroDivisionError else Ok (x / y).

(** The rational number a finite float stands for. *)
Definition to_Q (x : float) : option Q :=
  match Prim2SF x with
  | S754_zero _ => Some 0%Q
  | S754_finite s m e =>
      let n := if s then Z.neg m else Z.pos m in
      Some (match e with
            | Z0 => inject_Z n
            | Z.pos p => inject_Z (n * 2 ^ Z.pos p)
            | Z.neg p => Qmake n (2 ^ p)
            end)
  | S754_infinity _ => None
  | S754_nan => None
  end.

(** The same number as a real; infinities and NaN are sent to 0. *)
Definition to_R (x : float) : R :=
  match to_Q x with
  | Some q => Q2R q
  | None => 0%R
  end.

End PyFloat.

(** ** Name patterns *)

Module pattern.

(** Modelled from the spec: selectors and override keys are pattern strings
    with "regex semantics", matched against the whole element name
    (section 4.3, step 1); the matching routine lives in mjlab's string
    utilities, outside the constants module.  The pattern language below is
    the part of Python's [re] syntax that the configuration uses: ordinary
    characters, [.], bracketed character sets, a postfix star on one of
    these, and the anchors [^] and [$].  Any other metacharacter makes
    [parse] fail rather than be misread. *)
Inductive atom : Type :=
| Lit (c : ascii)
| Dot
| OneOf (cs : list ascii).

(** Modelled from the spec: a pattern is a sequence of items, an anchor or
    an atom taken once or any number of times. *)
Inductive item : Type :=
| Bol
| Eol
| One (a : atom)
| Many (a : atom).

Definition newline : ascii := "010"%char.

(** Modelled from the spec: characters with a meaning of their own in
    Python's [re] syntax that the pattern language above does not cover. *)
Definition unsupported (c : ascii) : bool :=
  existsb (Ascii.eqb c)
    ["\"; "("; ")"; "|"; "+"; "?"; "{"; "}"; "]"]%char.

Definition unsupported_in_set (c : ascii) : bool :=
  existsb (Ascii.eqb c) ["\"; "-"; "^"; "["]%char.

(** Modelled from the spec: the pattern parser, which stands for
    [re.compile].  It reads the pattern left to right with the items read so
    far (latest first) and, inside brackets, the members read so far. *)
Fixpoint parse_from (s : string) (acc : list item) (set : option (list ascii))
  : option (list item) :=
  match s with
  | EmptyString =>
      match set with
      | None => Some (rev acc)
      | Some _ => None
      end
  | String c s' =>
      match set with
      | Some cs =>
          if Ascii.eqb c "]" then
            match cs with
            | [] => None
            | _ :: _ => parse_from s' (One (OneOf (rev cs)) :: acc) None
            end
          else if unsupported_in_set c then None
          else parse_from s' acc (Some (c :: cs))
      | None =>
          if Ascii.eqb c "^" then parse_from s' (Bol :: acc) None
          else if Ascii.eqb c "$" then parse_from s' (Eol :: acc) None
          else if Ascii.eqb c "." then parse_from s' (One Dot :: acc) None
          else if Ascii.eqb c "[" then parse_from s' acc (Some [])
          else if Ascii.eqb c "*" then
            match acc with
            | One a :: acc' => parse_from s' (Many a :: acc') None
            | _ => None
            end
          else if unsupported c then None
          else parse_from s' (One (Lit c) :: acc) None
      end
  end.

Definition parse (p : string) : option (list item) := parse_from p [] None.

(** Modelled from the spec: the characters an atom stands for; [.] is any
    character but a newline. *)
Definition accepts (a : atom) (c : ascii) : bool :=
  match a with
  | Lit d => Ascii.eqb d c
  | Dot => negb (Ascii.eqb c newline)
  | OneOf cs => existsb (Ascii.eqb c) cs
  end.

(** Modelled from the spec: [$] holds at the end of the name and just
    before a final newline, as in Python. *)
Definition at_eol (s : string) : bool :=
  match s with
  | EmptyString => true
  | String c EmptyString => Ascii.eqb c newline
  | String _ (String _ _) => false
  end.

(** Modelled from the spec: [a*] followed by the rest [k] of the pattern;
    the rest matches here, or [a] takes one more character.  [bol] tells
    whether the position is the start of the name. *)
Fixpoint star (a : atom) (k : bool -> string -> bool) (bol : bool) (s : string)
  : bool :=
  k bol s ||
  match s with
  | EmptyString => false
  | String c s' => accepts a c && star a k false s'
  end.

(** Modelled from the spec: the items match the whole of [s]. *)
Fixpoint match_items (its : list item) (bol : bool) (s : string) : bool :=
  match its with
  | [] =>
      match s with
      | EmptyString => true
      | String _ _ => false
      end
  | Bol :: r => bol && match_items r bol s
  | Eol :: r => at_eol s && match_items r bol s
  | One a :: r =>
      match s with
      | EmptyString => false
      | String c s' => accepts a c && match_items r false s'
      end
  | Many a :: r => star a (match_items r) bol s
  end.

(** Modelled from the spec: the full-string match of the pattern [p]
    against [name] (section 4.3, step 1); a pattern outside the supported
    syntax is an error. *)
Definition fullmatch (p name : string) : result bool :=
  match parse p with
  | None => Err PatternError
  | Some its => Ok (match_items its true name)
  end.

End pattern.

(** ** Selector and override resolution *)

Module resolver.

(** Modelled from the spec: the [OverridableProperty] of section 3, in the
    tagged form of section 9: a scalar, or a pattern-to-value mapping whose
    entries keep their declaration order (a Python [dict] literal). *)
Inductive overridable (T : Type) : Type :=
| Scalar (v : T)
| Patterned (kvs : list (string * T)).
Arguments Scalar {T} v.
Arguments Patterned {T} kvs.

Section Resolve.

Context {T : Type}.

(** Modelled from the spec: step 1 of section 4.3, the selector patterns
    that match an element name. *)
Fixpoint matching_patterns (selector_patterns : list string) (name : string)
  : result (list string) :=
  match selector_patterns with
  | [] => Ok []
  | p :: ps =>
      b ← pattern.fullmatch p name;
      ms ← matching_patterns ps name;
      Ok (if b : bool then p :: ms else ms)
  end.

(** Modelled from the spec: step 4, the override keys are checked in
    declaration order and the first one that matches the element decides.
    Positions in the mapping are the declared priorities, so no two keys
    have the same one and the conflict of step 5 cannot arise. *)
Fixpoint first_override (kvs : list (string * T)) (name : string)
  : result (option T) :=
  match kvs with
  | [] => Ok None
  | (k, v) :: kvs' =>
      b ← pattern.fullmatch k name;
      if b : bool then Ok (Some v) else first_override kvs' name
  end.

(** Modelled from the spec: steps 3 and 4 for one matched element.  A
    catch-all key is found by [first_override] like any other; when no key
    matches, the fallback is the [default] of the contract, and without one
    resolution fails with "no override defined for matched element". *)
(** Modelled from the spec: the fallback of step 4 when no key matches. *)
Definition fallback (default : option T) : result T :=
  match default with
  | Some d => Ok d
  | None => Err NoOverrideError
  end.

Definition resolve_element (property : overridable T) (default : option T)
    (name : string) : result T :=
  match property with
  | Scalar v => Ok v
  | Patterned kvs =>
      o ← first_override kvs name;
      match o with
      | Some v => Ok v
      | None => fallback default
      end
  end.

(** Modelled from the spec: step 2, an element no selector pattern matches
    is left out, or is an error when the caller requires full coverage. *)
Definition resolve_step (selector_patterns : list string)
    (property : overridable T) (default : option T) (require_coverage : bool)
    (m : gmap string T) (name : string) : result (gmap string T) :=
  ms ← matching_patterns selector_patterns name;
  match ms with
  | [] => if require_coverage then Err UnmatchedElementError else Ok m
  | _ :: _ =>
      v ← resolve_element property default name;
      Ok (<[name := v]> m)
  end.

(** Modelled from the spec: the [resolve] contract of section 4.3. *)
Definition resolve (element_names selector_patterns : list string)
    (property : overridable T) (default : option T) (require_coverage : bool)
  : result (gmap string T) :=
  foldM (resolve_step selector_patterns property default require_coverage)
    element_names ∅.

End Resolve.

End resolver.

(** ** [mjlab.utils.spec_config.CollisionCfg] *)

Module CollisionCfg.
(** Modelled from the spec: the class is defined in mjlab's [spec_config]
    module; the fields are the keyword arguments that the constants module
    passes, each an [OverridableProperty] (section 3). *)
Record t : Type := make {
  geom_names_expr : list string;
  contype : resolver.overridable Z;
  conaffinity : resolver.overridable Z;
  condim : resolver.overridable Z;
  priority : resolver.overridable Z;
  friction : resolver.overridable (list float);
  solimp : resolver.overridable (list float);
}.
End CollisionCfg.

Module ResolvedElementConfig.
(** Modelled from the spec: the per-element property bag of section 3, with
    the properties of a collision group; no pattern is left in it. *)
Record t : Type := make {
  contype : Z;
  conaffinity : Z;
  condim : Z;
  priority : Z;
  friction : list float;
  solimp : list float;
}.
End ResolvedElementConfig.

Module collision.

(** Modelled from the spec: the [default] argument of the [resolve] contract
    (section 4.3, "default: T | None"), one for each property of a
    collision group.  They belong to the caller of the resolution, not to
    the group. *)
Record defaults : Type := make_defaults {
  default_contype : option Z;
  default_conaffinity : option Z;
  default_condim : option Z;
  default_priority : option Z;
  default_friction : option (list float);
  default_solimp : option (list float);
}.

(** Modelled from the spec: the [ResolvedElementConfig] of section 3 is the
    property bag "produced by resolution"; here the resolution of
    section 4.3 is applied to every property of a collision group for one
    element name, each with the caller's default for that property.  An
    element that the group's selector does not match is left out ([None],
    step 2). *)
Definition resolve_geom (dflt : defaults) (cfg : CollisionCfg.t) (name : string)
  : result (option ResolvedElementConfig.t) :=
  ms ← resolver.matching_patterns (CollisionCfg.geom_names_expr cfg) name;
  match ms with
  | [] => Ok None
  | _ :: _ =>
      contype ← resolver.resolve_element
                  (CollisionCfg.contype cfg) (default_contype dflt) name;
      conaffinity ← resolver.resolve_element
                      (CollisionCfg.conaffinity cfg) (default_conaffinity dflt) name;
      condim ← resolver.resolve_element
                 (CollisionCfg.condim cfg) (default_condim dflt) name;
      priority ← resolver.resolve_element
                   (CollisionCfg.priority cfg) (default_priority dflt) name;
      friction ← resolver.resolve_element
                   (CollisionCfg.friction cfg) (default_friction dflt) name;
      solimp ← resolver.resolve_element
                 (CollisionCfg.solimp cfg) (default_solimp dflt) name;
      Ok (Some (ResolvedElementConfig.make
                  contype conaffinity condim priority friction solimp))
  end.

End collision.

(** ** [mjlab.utils.actuator] *)

Module ElectricActuator.
(** Modelled from the spec: the class is imported from
    [mjlab.utils.actuator]; its fields are those of the [ActuatorSpec] of
    section 3, the keyword arguments that the constants module passes. *)
Record t : Type := make {
  reflected_inertia : float;
  velocity_limit : float;
  effort_limit : float;
}.
End ElectricActuator.

Module actuator.

Local Open Scope float_scope.

(** Modelled from the spec: [reflected_inertia] is imported from
    [mjlab.utils.actuator], which is not among the files modelled here.
    Section 4.1 gives its contract: the value is
    [rotor_inertia * gear_ratio**2], and the call fails with a domain error
    when [gear_ratio <= 0] or [rotor_inertia < 0]. *)
Definition reflected_inertia (rotor_inertia gear_ratio : float) : result float :=
  if (gear_ratio <=? 0) || (rotor_inertia <? 0)
  then Err DomainError
  else Ok (rotor_inertia * PyFloat.sq gear_ratio).

End actuator.

(** ** Gain derivation *)

Module GainPair.
Record t : Type := make {
  stiffness : float;
  damping : float;
}.
End GainPair.

Module gains.

Local Open Scope float_scope.

(** Modelled from the spec: [derive_gains] of section 4.2.  The source has
    no such function, it writes the two formulas out once per actuator
    ([STIFFNESS_HIP] ... [DAMPING_KNEE] below).  The contract asks for
    [natural_freq_rad_s > 0] and [damping_ratio >= 0]; an [ActuatorSpec]
    has [reflected_inertia > 0] (section 3), and section 7 lists a
    non-positive inertia or frequency as a domain error. *)
Definition derive_gains (a : ElectricActuator.t)
    (natural_freq_rad_s damping_ratio : float) : result GainPair.t :=
  let i := ElectricActuator.reflected_inertia a in
  if negb (0 <? i) || negb (0 <? natural_freq_rad_s) || negb (0 <=? damping_ratio)
  then Err DomainError
  else Ok (GainPair.make
             (i * PyFloat.sq natural_freq_rad_s)
             (2 * damping_ratio * i * natural_freq_rad_s)).

End gains.

(** ** [mjlab.actuator.BuiltinPositionActuatorCfg] *)

Module BuiltinPositionActuatorCfg.
(** Modelled from the spec: the class is imported from [mjlab.actuator];
    the fields are the keyword arguments that the constants module passes
    to it (an actuator group of section 4.4).  [effort_limit] may be [None]:
    the action-scale loop asserts that it is not. *)
Record t : Type := make {
  joint_names_expr : list string;
  stiffness : float;
  damping : float;
  effort_limit : option float;
  armature : float;
}.
End BuiltinPositionActuatorCfg.

(** An entry of [EntityArticulationInfoCfg.actuators]: the loop checks with
    [isinstance] that it is a [BuiltinPositionActuatorCfg]; [OtherActuator]
    stands for any other actuator configuration class. *)
Inductive ActuatorCfg : Type :=
| BuiltinPosition (c : BuiltinPositionActuatorCfg.t)
| OtherActuator.

Module EntityArticulationInfoCfg.
(** Modelled from the spec: the class is imported from [mjlab.entity]; the
    fields are the keyword arguments that the constants module passes: the
    ordered actuator groups and the soft-limit factor of section 3. *)
Record t : Type := make {
  actuators : list ActuatorCfg;
  soft_joint_pos_limit_factor : float;
}.
End EntityArticulationInfoCfg.

(** ** The constants module *)

Module go2_constants.

Local Open Scope float_scope.

(** *** Actuator config *)

(** Rotor inertia (similar to Go1). *)
Definition ROTOR_INERTIA : float := 0.000111842.

(** Gear ratios for hip and knee joints: Python ints, converted to float
    where they meet a float operand. *)
Definition HIP_GEAR_RATIO : Z := 6.
Definition KNEE_GEAR_RATIO : Z := 12.

Definition HIP_ACTUATOR_init : result ElectricActuator.t :=
  ri ← actuator.reflected_inertia ROTOR_INERTIA (PyFloat.of_int HIP_GEAR_RATIO);
  Ok (ElectricActuator.make ri 30.1 23.7).

Definition HIP_ACTUATOR : ElectricActuator.t := value HIP_ACTUATOR_init I.

Definition KNEE_ACTUATOR_init : result ElectricActuator.t :=
  ri ← actuator.reflected_inertia ROTOR_INERTIA (PyFloat.of_int KNEE_GEAR_RATIO);
  Ok (ElectricActuator.make ri 15.70 45.43).

Definition KNEE_ACTUATOR : ElectricActuator.t := value KNEE_ACTUATOR_init I.

(** Natural frequency and damping ratio for PD-like actuator behavior. *)
Definition NATURAL_FREQ : float := 10.0 * 2.0 * 3.1415926535.
Definition DAMPING_RATIO : float := 2.0.

Definition STIFFNESS_HIP : float :=
  ElectricActuator.reflected_inertia HIP_ACTUATOR * PyFloat.sq NATURAL_FREQ.
Definition DAMPING_HIP : float :=
  2 * DAMPING_RATIO * ElectricActuator.reflected_inertia HIP_ACTUATOR * NATURAL_FREQ.

Definition STIFFNESS_KNEE : float :=
  ElectricActuator.reflected_inertia KNEE_ACTUATOR * PyFloat.sq NATURAL_FREQ.
Definition DAMPING_KNEE : float :=
  2 * DAMPING_RATIO * ElectricActuator.reflected_inertia KNEE_ACTUATOR * NATURAL_FREQ.

(** Builtin PD position actuators for hip and knee joints. *)
Definition GO2_HIP_ACTUATOR_CFG : BuiltinPositionActuatorCfg.t :=
  BuiltinPositionActuatorCfg.make
    [".*_hip_joint"; ".*_thigh_joint"]%string
    STIFFNESS_HIP
    DAMPING_HIP
    (Some (ElectricActuator.effort_limit HIP_ACTUATOR))
    (ElectricActuator.reflected_inertia HIP_ACTUATOR).

Definition GO2_KNEE_ACTUATOR_CFG : BuiltinPositionActuatorCfg.t :=
  BuiltinPositionActuatorCfg.make
    [".*_calf_joint"]%string
    STIFFNESS_KNEE
    DAMPING_KNEE
    (Some (ElectricActuator.effort_limit KNEE_ACTUATOR))
    (ElectricActuator.reflected_inertia KNEE_ACTUATOR).

(** *** Collision config *)

Definition _foot_regex : string := "^[FR][LR]_foot_collision$".

Definition FEET_ONLY_COLLISION : CollisionCfg.t := {|
  CollisionCfg.geom_names_expr := [_foot_regex];
  CollisionCfg.contype := resolver.Scalar 0%Z;
  CollisionCfg.conaffinity := resolver.Scalar 1%Z;
  CollisionCfg.condim := resolver.Scalar 3%Z;
  CollisionCfg.priority := resolver.Scalar 1%Z;
  CollisionCfg.friction := resolver.Scalar [0.6];
  CollisionCfg.solimp := resolver.Scalar [0.9; 0.95; 0.023];
|}.

Definition FULL_COLLISION : CollisionCfg.t := {|
  CollisionCfg.geom_names_expr := [".*_collision"%string];
  CollisionCfg.condim :=
    resolver.Patterned [(_foot_regex, 3%Z); (".*_collision"%string, 1%Z)];
  CollisionCfg.priority := resolver.Patterned [(_foot_regex, 1%Z)];
  CollisionCfg.friction := resolver.Patterned [(_foot_regex, [0.6])];
  CollisionCfg.solimp := resolver.Patterned [(_foot_regex, [0.9; 0.95; 0.023])];
  CollisionCfg.contype := resolver.Scalar 1%Z;
  CollisionCfg.conaffinity := resolver.Scalar 0%Z;
|}.

(** *** Final articulation config *)

Definition GO2_ARTICULATION : EntityArticulationInfoCfg.t :=
  EntityArticulationInfoCfg.make
    [BuiltinPosition GO2_HIP_ACTUATOR_CFG; BuiltinPosition GO2_KNEE_ACTUATOR_CFG]
    0.9.

(** *** Action scaling computation *)

(** Action scale multiplier: 0.25 = conservative, 0.5 = moderate,
    1.0 = full range. *)
Definition ACTION_SCALE_MULTIPLIER : float := 0.25.

(** The body of [for n in names]: one dictionary assignment; the quotient
    [e / s] is evaluated anew for every [n]. *)
Definition action_scale_assign (multiplier e s : float)
    (scale : gmap string float) (n : string) : result (gmap string float) :=
  q ← PyFloat.truediv e s;
  Ok (<[n := multiplier * q]> scale).

(** The body of [for a in GO2_ARTICULATION.actuators]: the two assertions,
    then the inner loop. *)
Definition action_scale_group (multiplier : float)
    (scale : gmap string float) (a : ActuatorCfg) : result (gmap string float) :=
  match a with
  | OtherActuator => Err AssertionError
  | BuiltinPosition c =>
      let e := BuiltinPositionActuatorCfg.effort_limit c in
      let s := BuiltinPositionActuatorCfg.stiffness c in
      let names := BuiltinPositionActuatorCfg.joint_names_expr c in
      match e with
      | None => Err AssertionError
      | Some e => foldM (action_scale_assign multiplier e s) names scale
      end
  end.

(** The whole loop, started from the empty dictionary. *)
Definition action_scale (multiplier : float) (actuators : list ActuatorCfg)
  : result (gmap string float) :=
  foldM (action_scale_group multiplier) actuators ∅.

Definition GO2_ACTION_SCALE_init : result (gmap string float) :=
  action_scale ACTION_SCALE_MULTIPLIER
    (EntityArticulationInfoCfg.actuators GO2_ARTICULATION).

Definition GO2_ACTION_SCALE : gmap string float := value GO2_ACTION_SCALE_init I.

End go2_constants.


(** ** Vocabulary of the statements *)

Import go2_constants.

(** The joint patterns the loop visits, group after group. *)
Definition group_patterns (a : ActuatorCfg) : list string :=
  match a with
  | BuiltinPosition c => BuiltinPositionActuatorCfg.joint_names_expr c
  | OtherActuator => []
  end.

Definition joint_patterns (actuators : list ActuatorCfg) : list string :=
  flat_map group_patterns actuators.

(** Whether the loop body returns for a group: an entry that is not a
    [BuiltinPositionActuatorCfg] or has no effort limit trips an assertion,
    and a zero stiffness makes the division raise as soon as there is a
    joint pattern to assign. *)
Definition group_returns (a : ActuatorCfg) : bool :=
  match a with
  | OtherActuator => false
  | BuiltinPosition c =>
      match BuiltinPositionActuatorCfg.effort_limit c with
      | None => false
      | Some _ =>
          negb (BuiltinPositionActuatorCfg.stiffness c =? 0)%float
          || match BuiltinPositionActuatorCfg.joint_names_expr c with
             | [] => true
             | _ :: _ => false
             end
      end
  end.

(** The exception a group makes the loop body raise, if any: the two
    assertions come first, the division only once there is a joint pattern
    to assign. *)
Definition group_error (a : ActuatorCfg) : option error :=
  match a with
  | OtherActuator => Some AssertionError
  | BuiltinPosition c =>
      match BuiltinPositionActuatorCfg.effort_limit c with
      | None => Some AssertionError
      | Some _ =>
          match BuiltinPositionActuatorCfg.joint_names_expr c with
          | [] => None
          | _ :: _ =>
              if (BuiltinPositionActuatorCfg.stiffness c =? 0)%float
              then Some ZeroDivisionError
              else None
          end
      end
  end.

(** The exception of the first group that raises one. *)
Fixpoint first_error (actuators : list ActuatorCfg) : option error :=
  match actuators with
  | [] => None
  | a :: rest =>
      match group_error a with
      | Some e => Some e
      | None => first_error rest
      end
  end.

(** The scale that a group assigns to [n], if it lists [n] and has an
    effort limit. *)
Definition group_scale (mult : float) (a : ActuatorCfg) (n : string)
  : option float :=
  match a with
  | OtherActuator => None
  | BuiltinPosition c =>
      if decide (n ∈ BuiltinPositionActuatorCfg.joint_names_expr c)
      then e ← BuiltinPositionActuatorCfg.effort_limit c;
           Some (mult * (e / BuiltinPositionActuatorCfg.stiffness c))%float
      else None
  end.

(** The scale of the last group that assigns one to [n]. *)
Fixpoint last_scale (mult : float) (actuators : list ActuatorCfg) (n : string)
  : option float :=
  match actuators with
  | [] => None
  | a :: rest =>
      match last_scale mult rest n with
      | Some v => Some v
      | None => group_scale mult a n
      end
  end.

(** The rational value of a float, 0 where it has none. *)
Definition exact (x : float) : Q := default 0%Q (PyFloat.to_Q x).

(** [x] is [k] times [y] as rational numbers, both being finite. *)
Definition exact_ratio (x y : float) (k : Q) : bool :=
  match PyFloat.to_Q x, PyFloat.to_Q y with
  | Some qx, Some qy => Qeq_bool qx (k * qy)
  | _, _ => false
  end.

(** The float [x] is finite and within the relative distance [eps] of the
    rational number that [formula] yields in exact arithmetic. *)
Definition within (x : float) (formula : (float -> Q) -> Q) (eps : Q) : bool :=
  match PyFloat.to_Q x with
  | Some qx =>
      Qle_bool (Qabs (qx - formula exact)) (eps * Qabs (formula exact))
  | None => false
  end.

(** [math.pi], the binary64 number nearest to π. *)
Definition math_pi : float := 3.141592653589793%float.

(** The hip scale of the action-scale scenario (section 8), in real
    arithmetic with the true π ... *)
Definition expected_hip_scale : R :=
  (0.25 * 23.7
   / (PyFloat.to_R (ElectricActuator.reflected_inertia HIP_ACTUATOR)
      * (2 * PI * 10) ^ 2))%R.

(** ... and as a Python expression over floats with [math.pi]. *)
Definition expected_hip_scale_float : float :=
  (0.25 * 23.7
   / (ElectricActuator.reflected_inertia HIP_ACTUATOR
      * PyFloat.sq (2 * math_pi * 10)))%float.

(** * Properties *)

(** ** Fallible folds *)

Section FoldM.

Context {A S : Type} (f : S -> A -> result S).

Lemma foldM_cons x l s :
  foldM f (x :: l) s = s' ← f s x; foldM f l s'.
Proof. reflexivity. Qed.

(** A fold whose every step returns, returns; [P] is what the steps keep. *)
Lemma foldM_succeeds (P : S -> Prop) l s :
  P s ->
  (forall s0 x, x ∈ l -> P s0 -> exists s1, f s0 x = Ok s1 /\ P s1) ->
  exists s', foldM f l s = Ok s' /\ P s'.
Proof.
  revert s. induction l as [|x l IH]; intros s Hs Hstep.
  - exists s. split; [reflexivity|assumption].
  - destruct (Hstep s x) as (s1 & Hf & Hs1); [left|assumption|].
    rewrite foldM_cons, Hf. cbn. apply IH; [assumption|].
    intros s0 y Hy. apply Hstep. now right.
Qed.

(** What every step keeps, the fold keeps. *)
Lemma foldM_invariant (P : S -> Prop) l s s' :
  P s ->
  (forall s0 x s1, x ∈ l -> P s0 -> f s0 x = Ok s1 -> P s1) ->
  foldM f l s = Ok s' -> P s'.
Proof.
  revert s. induction l as [|x l IH]; intros s Hs Hstep Hfold.
  - cbn in Hfold. now injection Hfold as <-.
  - rewrite foldM_cons in Hfold.
    destruct (f s x) as [s1|e] eqn:Hf; cbn in Hfold; [|discriminate].
    apply (IH s1); [|intros s0 y s2 Hy; apply Hstep; now right|exact Hfold].
    apply (Hstep s x); [left|assumption|assumption].
Qed.

End FoldM.

(** ** Comparisons with zero *)

Section FloatOrder.

Local Open Scope float_scope.

Lemma ltb_zero_not_leb g : (0 <? g) = true -> (g <=? 0) = false.
Proof.
  rewrite ltb_spec, leb_spec. change (Prim2SF 0) with (S754_zero false).
  destruct (Prim2SF g) as [s|s| |s m e]; try destruct s; cbn; congruence.
Qed.

Lemma leb_zero_not_ltb r : (0 <=? r) = true -> (r <? 0) = false.
Proof.
  rewrite ltb_spec, leb_spec. change (Prim2SF 0) with (S754_zero false).
  destruct (Prim2SF r) as [s|s| |s m e]; try destruct s; cbn; congruence.
Qed.

End FloatOrder.

(** ** Reflected inertia and gains *)

Section Gains.

Local Open Scope float_scope.

(** C5. [reflected_inertia rotor_inertia gear_ratio] is
    [rotor_inertia * gear_ratio**2] when [rotor_inertia >= 0] and
    [gear_ratio > 0], and a domain error when [gear_ratio <= 0] or
    [rotor_inertia < 0]; the hip actuator's reflected inertia is
    [0.000111842 * 6**2] and the knee actuator's [0.000111842 * 12**2]. *)
Theorem reflected_inertia_contract :
  (forall rotor_inertia gear_ratio,
      (0 <=? rotor_inertia) = true -> (0 <? gear_ratio) = true ->
      actuator.reflected_inertia rotor_inertia gear_ratio
      = Ok (rotor_inertia * PyFloat.sq gear_ratio)) /\
  (forall rotor_inertia gear_ratio,
      (gear_ratio <=? 0) = true \/ (rotor_inertia <? 0) = true ->
      actuator.reflected_inertia rotor_inertia gear_ratio = Err DomainError) /\
  HIP_ACTUATOR_init = Ok HIP_ACTUATOR /\
  KNEE_ACTUATOR_init = Ok KNEE_ACTUATOR /\
  ElectricActuator.reflected_inertia HIP_ACTUATOR = 0.000111842 * PyFloat.sq 6 /\
  ElectricActuator.reflected_inertia KNEE_ACTUATOR = 0.000111842 * PyFloat.sq 12 /\
  PyFloat.sq 6 = PyFloat.of_int (6 ^ 2) /\
  PyFloat.sq 12 = PyFloat.of_int (12 ^ 2).
Proof.
  split; [|split].
  - intros r g Hr Hg. unfold actuator.reflected_inertia.
    now rewrite (ltb_zero_not_leb g Hg), (leb_zero_not_ltb r Hr).
  - intros r g H. unfold actuator.reflected_inertia.
    destruct H as [-> | ->]; [reflexivity|]. now rewrite orb_true_r.
  - repeat split; vm_compute; reflexivity.
Qed.

Lemma reflected_inertia_contract_witness :
  actuator.reflected_inertia ROTOR_INERTIA (PyFloat.of_int HIP_GEAR_RATIO)
  = Ok (ROTOR_INERTIA * PyFloat.sq (PyFloat.of_int HIP_GEAR_RATIO)) /\
  actuator.reflected_inertia ROTOR_INERTIA (-1) = Err DomainError.
Proof.
  split.
  - apply (proj1 reflected_inertia_contract); reflexivity.
  - apply (proj1 (proj2 reflected_inertia_contract)). left. reflexivity.
Defined.

(** C1. For a valid input (inertia [i > 0], frequency [w > 0], damping ratio
    [z >= 0]) gain derivation returns stiffness [i * w**2] and damping
    [2 * z * i * w]; the four gain constants of the module are these
    formulas at the hip and knee actuators' reflected inertias, which is
    also what [derive_gains] returns there, and each constant is within
    [2^-52] of its formula evaluated in exact arithmetic at the float
    inputs: nothing but the rounding of the float operations. *)
Theorem derive_gains_closed_form :
  (forall a w z,
      (0 <? ElectricActuator.reflected_inertia a) = true ->
      (0 <? w) = true -> (0 <=? z) = true ->
      gains.derive_gains a w z
      = Ok (GainPair.make
              (ElectricActuator.reflected_inertia a * PyFloat.sq w)
              (2 * z * ElectricActuator.reflected_inertia a * w))) /\
  STIFFNESS_HIP
  = ElectricActuator.reflected_inertia HIP_ACTUATOR * PyFloat.sq NATURAL_FREQ /\
  DAMPING_HIP
  = 2 * DAMPING_RATIO * ElectricActuator.reflected_inertia HIP_ACTUATOR * NATURAL_FREQ /\
  STIFFNESS_KNEE
  = ElectricActuator.reflected_inertia KNEE_ACTUATOR * PyFloat.sq NATURAL_FREQ /\
  DAMPING_KNEE
  = 2 * DAMPING_RATIO * ElectricActuator.reflected_inertia KNEE_ACTUATOR * NATURAL_FREQ /\
  gains.derive_gains HIP_ACTUATOR NATURAL_FREQ DAMPING_RATIO
  = Ok (GainPair.make STIFFNESS_HIP DAMPING_HIP) /\
  gains.derive_gains KNEE_ACTUATOR NATURAL_FREQ DAMPING_RATIO
  = Ok (GainPair.make STIFFNESS_KNEE DAMPING_KNEE) /\
  within STIFFNESS_HIP
    (fun q => q (ElectricActuator.reflected_inertia HIP_ACTUATOR)
              * (q NATURAL_FREQ * q NATURAL_FREQ))%Q (1 # 2 ^ 52) = true /\
  within DAMPING_HIP
    (fun q => 2 * q DAMPING_RATIO * q (ElectricActuator.reflected_inertia HIP_ACTUATOR)
              * q NATURAL_FREQ)%Q (1 # 2 ^ 52) = true /\
  within STIFFNESS_KNEE
    (fun q => q (ElectricActuator.reflected_inertia KNEE_ACTUATOR)
              * (q NATURAL_FREQ * q NATURAL_FREQ))%Q (1 # 2 ^ 52) = true /\
  within DAMPING_KNEE
    (fun q => 2 * q DAMPING_RATIO * q (ElectricActuator.reflected_inertia KNEE_ACTUATOR)
              * q NATURAL_FREQ)%Q (1 # 2 ^ 52) = true.
Proof.
  split.
  - intros a w z Hi Hw Hz. unfold gains.derive_gains. cbv zeta.
    now rewrite Hi, Hw, Hz.
  - repeat split; vm_compute; reflexivity.
Qed.

Lemma derive_gains_closed_form_witness :
  gains.derive_gains HIP_ACTUATOR NATURAL_FREQ DAMPING_RATIO
  = Ok (GainPair.make
          (ElectricActuator.reflected_inertia HIP_ACTUATOR * PyFloat.sq NATURAL_FREQ)
          (2 * DAMPING_RATIO * ElectricActuator.reflected_inertia HIP_ACTUATOR
           * NATURAL_FREQ)).
Proof. apply (proj1 derive_gains_closed_form); reflexivity. Defined.

(** C7. The knee actuator's reflected inertia is four times the hip's (gear
    ratios 12 and 6), both share [NATURAL_FREQ] and [DAMPING_RATIO], and the
    knee gains are four times the hip gains: as float equations, and as
    equations between the rational numbers the floats stand for. *)
Theorem knee_gains_scale_with_inertia :
  (ElectricActuator.reflected_inertia KNEE_ACTUATOR
   = 4 * ElectricActuator.reflected_inertia HIP_ACTUATOR /\
   STIFFNESS_KNEE = 4 * STIFFNESS_HIP /\
   DAMPING_KNEE = 4 * DAMPING_HIP) /\
  exact_ratio (ElectricActuator.reflected_inertia KNEE_ACTUATOR)
    (ElectricActuator.reflected_inertia HIP_ACTUATOR) 4 = true /\
  exact_ratio STIFFNESS_KNEE STIFFNESS_HIP 4 = true /\
  exact_ratio DAMPING_KNEE DAMPING_HIP 4 = true.
Proof. repeat split; vm_compute; reflexivity. Qed.

End Gains.

(** ** The action-scale loop *)

Section ActionScale.

Local Open Scope float_scope.

Implicit Types (scale : gmap string float) (n : string) (names : list string).

Lemma truediv_Ok e s q :
  PyFloat.truediv e s = Ok q <-> (s =? 0) = false /\ q = e / s.
Proof.
  unfold PyFloat.truediv. destruct (s =? 0); split.
  - discriminate.
  - intros [? _]; discriminate.
  - intros [= <-]. now split.
  - intros [_ ->]. reflexivity.
Qed.

(** The inner loop writes one and the same number under every name. *)
Lemma assign_loop_lookup mult e s names scale scale' :
  foldM (action_scale_assign mult e s) names scale = Ok scale' ->
  forall n,
    scale' !! n = if decide (n ∈ names) then Some (mult * (e / s)) else scale !! n.
Proof.
  revert scale. induction names as [|x names IH]; intros scale Hloop n.
  - cbn in Hloop. injection Hloop as <-.
    destruct (decide (n ∈ [])) as [Hin|_]; [inversion Hin|reflexivity].
  - rewrite foldM_cons in Hloop.
    destruct (action_scale_assign mult e s scale x) as [scale1|err] eqn:Hstep;
      cbn in Hloop; [|discriminate].
    unfold action_scale_assign in Hstep.
    destruct (PyFloat.truediv e s) as [q|err] eqn:Hq; cbn in Hstep; [|discriminate].
    apply truediv_Ok in Hq as [_ ->]. injection Hstep as <-.
    rewrite (IH _ Hloop n).
    destruct (decide (n ∈ names)) as [Hin|Hnin].
    + rewrite decide_True; [reflexivity|now right].
    + destruct (decide (n = x)) as [->|Hne].
      * rewrite decide_True by left. apply lookup_insert_eq.
      * rewrite decide_False.
        -- now apply lookup_insert_ne.
        -- intros [?|?]%elem_of_cons; contradiction.
Qed.

Lemma assign_loop_succeeds mult e s names scale :
  (s =? 0) = false ->
  exists scale', foldM (action_scale_assign mult e s) names scale = Ok scale'.
Proof.
  intros Hs.
  destruct (foldM_succeeds (action_scale_assign mult e s) (fun _ => True) names scale I)
    as (scale' & H & _); [|now exists scale'].
  intros s0 x _ _. exists (<[x := mult * (e / s)]> s0). split; [|exact I].
  unfold action_scale_assign, PyFloat.truediv. now rewrite Hs.
Qed.

Lemma assign_loop_zero mult e s x names scale :
  (s =? 0) = true ->
  foldM (action_scale_assign mult e s) (x :: names) scale = Err ZeroDivisionError.
Proof.
  intros Hs. rewrite foldM_cons.
  unfold action_scale_assign, PyFloat.truediv. now rewrite Hs.
Qed.

(** One group: where it returns, its names hold [multiplier * (e / s)] and
    every other key is as before. *)
Lemma action_scale_group_lookup mult scale a scale' :
  action_scale_group mult scale a = Ok scale' ->
  exists c e,
    a = BuiltinPosition c /\
    BuiltinPositionActuatorCfg.effort_limit c = Some e /\
    forall n,
      scale' !! n
      = if decide (n ∈ BuiltinPositionActuatorCfg.joint_names_expr c)
        then Some (mult * (e / BuiltinPositionActuatorCfg.stiffness c))
        else scale !! n.
Proof.
  destruct a as [c|]; [|discriminate]. cbn.
  destruct (BuiltinPositionActuatorCfg.effort_limit c) as [e|] eqn:He; [|discriminate].
  intros Hloop. exists c, e. split; [reflexivity|split; [exact He|]].
  now apply assign_loop_lookup.
Qed.

Lemma action_scale_group_dom mult scale a scale' :
  action_scale_group mult scale a = Ok scale' ->
  dom scale' = dom scale ∪ list_to_set (group_patterns a).
Proof.
  intros (c & e & -> & _ & Hlk)%action_scale_group_lookup.
  apply set_eq. intros n. cbn.
  rewrite elem_of_union, !elem_of_dom, elem_of_list_to_set, Hlk.
  destruct (decide (n ∈ BuiltinPositionActuatorCfg.joint_names_expr c)) as [Hin|Hnin].
  - split; [now right|eauto].
  - split; [now left|]. intros [?|?]; [assumption|contradiction].
Qed.

Lemma action_scale_from_dom mult actuators scale scale' :
  foldM (action_scale_group mult) actuators scale = Ok scale' ->
  dom scale' = dom scale ∪ list_to_set (joint_patterns actuators).
Proof.
  revert scale. induction actuators as [|a actuators IH]; intros scale Hloop.
  - cbn in Hloop. injection Hloop as <-. cbn. set_solver.
  - rewrite foldM_cons in Hloop.
    destruct (action_scale_group mult scale a) as [scale1|err] eqn:Ha;
      cbn in Hloop; [|discriminate].
    rewrite (IH _ Hloop), (action_scale_group_dom _ _ _ _ Ha).
    change (joint_patterns (a :: actuators))
      with (group_patterns a ++ joint_patterns actuators).
    rewrite list_to_set_app_L. set_solver.
Qed.

(** C6. Whenever the loop returns, the keys of the map are exactly the
    joint patterns of the actuator groups, each key once; the Go2 loop
    returns, and its map has the three keys [".*_hip_joint"],
    [".*_thigh_joint"] and [".*_calf_joint"], one entry each. *)
Theorem action_scale_keys :
  (forall mult actuators m,
      action_scale mult actuators = Ok m ->
      dom m = list_to_set (joint_patterns actuators) /\
      NoDup (map_to_list m).*1) /\
  GO2_ACTION_SCALE_init = Ok GO2_ACTION_SCALE /\
  joint_patterns (EntityArticulationInfoCfg.actuators GO2_ARTICULATION)
  = [".*_hip_joint"; ".*_thigh_joint"; ".*_calf_joint"]%string /\
  dom GO2_ACTION_SCALE
  = {[ ".*_hip_joint"; ".*_thigh_joint"; ".*_calf_joint" ]}%string /\
  size GO2_ACTION_SCALE = 3%nat.
Proof.
  split; [|split; [|split; [|split]]].
  - intros mult actuators m Hm. split; [|apply NoDup_fst_map_to_list].
    unfold action_scale in Hm. rewrite (action_scale_from_dom _ _ _ _ Hm). set_solver.
  - vm_compute. reflexivity.
  - reflexivity.
  - assert (H : GO2_ACTION_SCALE_init = Ok GO2_ACTION_SCALE) by (vm_compute; reflexivity).
    unfold GO2_ACTION_SCALE_init, action_scale in H.
    rewrite (action_scale_from_dom _ _ _ _ H). cbn. set_solver.
  - vm_compute. reflexivity.
Qed.

Lemma action_scale_keys_witness :
  dom GO2_ACTION_SCALE
  = list_to_set (joint_patterns (EntityArticulationInfoCfg.actuators GO2_ARTICULATION)) /\
  NoDup (map_to_list GO2_ACTION_SCALE).*1.
Proof.
  apply (proj1 action_scale_keys ACTION_SCALE_MULTIPLIER).
  vm_compute. reflexivity.
Defined.

(** C10. The joint patterns of one actuator group all receive the same
    scale when the group is processed; in the Go2 map [".*_hip_joint"] and
    [".*_thigh_joint"] hold the same number, the hip group's
    [0.25 * (effort_limit / stiffness)], and so do any two patterns of one
    Go2 group. *)
Theorem action_scale_shared_within_group :
  (forall mult scale c scale' n1 n2,
      action_scale_group mult scale (BuiltinPosition c) = Ok scale' ->
      n1 ∈ BuiltinPositionActuatorCfg.joint_names_expr c ->
      n2 ∈ BuiltinPositionActuatorCfg.joint_names_expr c ->
      is_Some (scale' !! n1) /\ scale' !! n1 = scale' !! n2) /\
  GO2_ACTION_SCALE !! ".*_hip_joint"%string
  = Some (ACTION_SCALE_MULTIPLIER
          * (ElectricActuator.effort_limit HIP_ACTUATOR / STIFFNESS_HIP)) /\
  GO2_ACTION_SCALE !! ".*_thigh_joint"%string
  = GO2_ACTION_SCALE !! ".*_hip_joint"%string /\
  (forall a n1 n2,
      a ∈ EntityArticulationInfoCfg.actuators GO2_ARTICULATION ->
      n1 ∈ group_patterns a -> n2 ∈ group_patterns a ->
      is_Some (GO2_ACTION_SCALE !! n1) /\
      GO2_ACTION_SCALE !! n1 = GO2_ACTION_SCALE !! n2).
Proof.
  split; [|split; [|split]].
  - intros mult scale c scale' n1 n2 Hg H1 H2.
    apply action_scale_group_lookup in Hg as (c' & e & [= <-] & _ & Hlk).
    rewrite !Hlk, !decide_True by assumption. split; [eauto|reflexivity].
  - vm_compute. reflexivity.
  - vm_compute. reflexivity.
  - intros a n1 n2 Ha H1 H2.
    repeat (apply elem_of_cons in Ha as [->|Ha]); [| |inversion Ha]; cbn in H1, H2.
    + repeat (apply elem_of_cons in H1 as [->|H1]); [| |inversion H1];
        (repeat (apply elem_of_cons in H2 as [->|H2]); [| |inversion H2]);
        (split; [vm_compute; eauto|vm_compute; reflexivity]).
    + apply list_elem_of_singleton in H1 as ->.
      apply list_elem_of_singleton in H2 as ->.
      split; [vm_compute; eauto|reflexivity].
Qed.

Lemma action_scale_shared_within_group_witness :
  is_Some (<[".*_hip_joint"%string := 0.3727530387083568]>
             (<[".*_thigh_joint"%string := 0.3727530387083568]> ∅ : gmap string float)
           !! ".*_hip_joint"%string) /\
  <[".*_hip_joint"%string := 0.3727530387083568]>
    (<[".*_thigh_joint"%string := 0.3727530387083568]> ∅ : gmap string float)
    !! ".*_hip_joint"%string
  = <[".*_hip_joint"%string := 0.3727530387083568]>
      (<[".*_thigh_joint"%string := 0.3727530387083568]> ∅ : gmap string float)
      !! ".*_thigh_joint"%string.
Proof.
  apply (proj1 action_scale_shared_within_group
           ACTION_SCALE_MULTIPLIER ∅ GO2_HIP_ACTUATOR_CFG).
  - vm_compute. reflexivity.
  - left.
  - right. left.
Defined.

Lemma action_scale_group_returns mult scale a :
  succeeds (action_scale_group mult scale a) <-> group_returns a = true.
Proof.
  destruct a as [c|]; cbn; [|split; [tauto|discriminate]].
  destruct (BuiltinPositionActuatorCfg.effort_limit c) as [e|];
    cbn; [|split; [tauto|discriminate]].
  destruct (BuiltinPositionActuatorCfg.stiffness c =? 0) eqn:Hs; cbn.
  - destruct (BuiltinPositionActuatorCfg.joint_names_expr c) as [|x names].
    + cbn. tauto.
    + rewrite (assign_loop_zero _ _ _ _ _ _ Hs). cbn. split; [tauto|discriminate].
  - destruct (assign_loop_succeeds mult e _
                (BuiltinPositionActuatorCfg.joint_names_expr c) scale Hs) as [scale' ->].
    cbn. tauto.
Qed.

Lemma action_scale_from_returns mult actuators scale :
  succeeds (foldM (action_scale_group mult) actuators scale)
  <-> forall a, a ∈ actuators -> group_returns a = true.
Proof.
  revert scale. induction actuators as [|a actuators IH]; intros scale.
  - cbn. split; [|tauto]. intros _ a Ha. inversion Ha.
  - rewrite foldM_cons.
    pose proof (action_scale_group_returns mult scale a) as Ha.
    destruct (action_scale_group mult scale a) as [scale1|err]; cbn in *.
    + rewrite IH. split.
      * intros H b [->|Hb]%elem_of_cons; [now apply Ha|now apply H].
      * intros H b Hb. apply H. now right.
    + split; [tauto|]. intros H.
      assert (group_returns a = true) as Hr by (apply H; left).
      now apply Ha in Hr.
Qed.

Lemma raises_not_succeeds {A : Type} (r : result A) : raises r <-> ~ succeeds r.
Proof. destruct r; cbn; tauto. Qed.

(** The loop raises exactly when some group makes its body raise. *)
Lemma action_scale_raises_iff mult actuators :
  raises (action_scale mult actuators)
  <-> exists a, a ∈ actuators /\ group_returns a = false.
Proof.
  rewrite raises_not_succeeds. unfold action_scale.
  rewrite action_scale_from_returns. split.
  - intros Hn. destruct (decide (Forall (fun a => group_returns a = true) actuators))
      as [Hall|Hex].
    + exfalso. apply Hn. now apply Forall_forall.
    + apply not_Forall_Exists in Hex; [|intros a; apply _].
      apply Exists_exists in Hex as (a & Ha & Hr). exists a. split; [assumption|].
      now apply not_true_is_false.
  - intros (a & Ha & Hr) Hall. specialize (Hall a Ha). congruence.
Qed.

(** Whatever the dictionary holds was computed from a group that lists the
    key. *)
Lemma action_scale_stored_values mult actuators m n v :
  action_scale mult actuators = Ok m -> m !! n = Some v ->
  exists c e,
    BuiltinPosition c ∈ actuators /\
    n ∈ BuiltinPositionActuatorCfg.joint_names_expr c /\
    BuiltinPositionActuatorCfg.effort_limit c = Some e /\
    v = mult * (e / BuiltinPositionActuatorCfg.stiffness c).
Proof.
  intros Hm. revert n v. unfold action_scale in Hm.
  apply (foldM_invariant (action_scale_group mult)
           (fun m => forall n v, m !! n = Some v ->
              exists c e,
                BuiltinPosition c ∈ actuators /\
                n ∈ BuiltinPositionActuatorCfg.joint_names_expr c /\
                BuiltinPositionActuatorCfg.effort_limit c = Some e /\
                v = mult * (e / BuiltinPositionActuatorCfg.stiffness c))
           actuators ∅ m); [| |exact Hm].
  - intros n v Hlk. now rewrite lookup_empty in Hlk.
  - intros m0 a m1 Ha IH (c & e & -> & He & Hlk)%action_scale_group_lookup n v Hn.
    rewrite Hlk in Hn.
    destruct (decide (n ∈ BuiltinPositionActuatorCfg.joint_names_expr c)) as [Hin|_].
    + injection Hn as <-. now exists c, e.
    + now apply IH.
Qed.

(** C8 as stated fails: a group whose stiffness is negative (hence [<= 0])
    and whose effort limit is present is processed without any error, and
    its joint pattern receives a negative scale. *)
Lemma negative_stiffness_does_not_raise :
  let c := BuiltinPositionActuatorCfg.make
             [".*_hip_joint"%string] (-1) 0 (Some 23.7) 0 in
  (BuiltinPositionActuatorCfg.stiffness c <=? 0) = true /\
  action_scale ACTION_SCALE_MULTIPLIER [BuiltinPosition c]
  = Ok {[ ".*_hip_joint"%string := -5.925 ]} /\
  ~ raises (action_scale ACTION_SCALE_MULTIPLIER [BuiltinPosition c]).
Proof. cbv zeta. split; [|split]; [vm_compute; reflexivity ..|vm_compute; tauto]. Qed.

End ActionScale.

(** ** Patterns *)

Section Patterns.

Import pattern.

Lemma accepts_Lit d c : accepts (Lit d) c = true -> c = d.
Proof. cbn. intros H. symmetry. now apply Ascii.eqb_eq. Qed.

Lemma accepts_OneOf2 x y c : accepts (OneOf [x; y]) c = true -> c = x \/ c = y.
Proof.
  cbn. rewrite orb_false_r. intros [H|H]%orb_prop; apply Ascii.eqb_eq in H; tauto.
Qed.

Lemma match_items_One a r bol s :
  match_items (One a :: r) bol s = true ->
  exists c s', s = String c s' /\ accepts a c = true /\ match_items r false s' = true.
Proof.
  destruct s as [|c s']; cbn [match_items]; [discriminate|].
  intros [Hc Hr]%andb_prop. now exists c, s'.
Qed.

Lemma match_items_end bol s : match_items [Eol] bol s = true -> s = EmptyString.
Proof. destruct s; cbn; [reflexivity|]. rewrite andb_false_r. discriminate. Qed.

Lemma match_items_Bol r s :
  match_items (Bol :: r) true s = true -> match_items r true s = true.
Proof. intros H. exact H. Qed.

Lemma fullmatch_Ok p name b :
  fullmatch p name = Ok b <->
  exists its, parse p = Some its /\ match_items its true name = b.
Proof.
  unfold fullmatch. destruct (parse p) as [its|]; split.
  - intros [= <-]. now exists its.
  - now intros (? & [= <-] & ->).
  - discriminate.
  - now intros (? & [=] & _).
Qed.

(** The foot pattern matches four names and nothing else. *)
Lemma foot_regex_names name :
  fullmatch _foot_regex name = Ok true ->
  name ∈ ["FL_foot_collision"; "FR_foot_collision";
          "RL_foot_collision"; "RR_foot_collision"]%string.
Proof.
  intros (its & Hp & H)%fullmatch_Ok.
  vm_compute in Hp. injection Hp as <-.
  apply match_items_Bol in H.
  apply match_items_One in H as (c1 & s1 & -> & H1%accepts_OneOf2 & H).
  apply match_items_One in H as (c2 & s2 & -> & H2%accepts_OneOf2 & H).
  repeat (apply match_items_One in H as (? & ? & -> & ->%accepts_Lit & H)).
  apply match_items_end in H as ->.
  destruct H1 as [-> | ->], H2 as [-> | ->]; set_solver.
Qed.

End Patterns.

(** ** Resolution of overrides *)

Section Resolution.

Import resolver.

Context {T : Type}.

Implicit Types (property : overridable T) (default : option T) (m : gmap string T).

Lemma matching_patterns_single p name b :
  pattern.fullmatch p name = Ok b ->
  matching_patterns [p] name = Ok (if b then [p] else []).
Proof. intros H. cbn. rewrite H. reflexivity. Qed.

(** The first key that matches decides, whatever comes after it. *)
Lemma first_override_first (kvs1 kvs2 : list (string * T)) k v name :
  Forall (fun kv => pattern.fullmatch kv.1 name = Ok false) kvs1 ->
  pattern.fullmatch k name = Ok true ->
  first_override (kvs1 ++ (k, v) :: kvs2) name = Ok (Some v).
Proof.
  intros Hpre Hk. induction Hpre as [|[k' v'] kvs1 Hk' _ IH]; cbn.
  - now rewrite Hk.
  - cbn in Hk'. now rewrite Hk'.
Qed.

Lemma first_override_none (kvs : list (string * T)) name :
  Forall (fun kv => pattern.fullmatch kv.1 name = Ok false) kvs ->
  first_override kvs name = Ok None.
Proof.
  induction 1 as [|[k v] kvs Hk _ IH]; cbn; [reflexivity|].
  cbn in Hk. now rewrite Hk.
Qed.

Lemma resolve_step_Ok pats property default cov m name m' :
  resolve_step pats property default cov m name = Ok m' ->
  (matching_patterns pats name = Ok [] /\ cov = false /\ m' = m) \/
  (exists p ms v,
      matching_patterns pats name = Ok (p :: ms) /\
      resolve_element property default name = Ok v /\
      m' = <[name := v]> m).
Proof.
  unfold resolve_step.
  destruct (matching_patterns pats name) as [[|p ms]|e]; cbn; [| |discriminate].
  - destruct cov; [discriminate|]. intros [= <-]. now left.
  - destruct (resolve_element property default name) as [v|e]; cbn; [|discriminate].
    intros [= <-]. right. now exists p, ms, v.
Qed.

(** Whatever the resolved mapping holds for a name was resolved for it. *)
Lemma resolve_lookup_inv names pats property default cov m name v :
  resolve names pats property default cov = Ok m ->
  m !! name = Some v ->
  name ∈ names /\
  (exists p ms, matching_patterns pats name = Ok (p :: ms)) /\
  resolve_element property default name = Ok v.
Proof.
  intros Hm. revert name v. unfold resolve in Hm.
  apply (foldM_invariant (resolve_step pats property default cov)
           (fun m => forall name v, m !! name = Some v ->
              name ∈ names /\
              (exists p ms, matching_patterns pats name = Ok (p :: ms)) /\
              resolve_element property default name = Ok v)
           names ∅ m); [| |exact Hm].
  - intros name v H. now rewrite lookup_empty in H.
  - intros m0 x m1 Hx IH Hstep name v Hlk.
    apply resolve_step_Ok in Hstep as [(_ & _ & ->)|(p & ms & w & Hsel & Hw & ->)].
    + now apply IH.
    + destruct (decide (name = x)) as [->|Hne].
      * rewrite lookup_insert_eq in Hlk. injection Hlk as <-. eauto.
      * rewrite lookup_insert_ne in Hlk by congruence. now apply IH.
Qed.

(** A selected element of the list is in the resolved mapping, with the
    value resolved for it. *)
Lemma resolve_lookup names pats property default cov m name p ms v :
  resolve names pats property default cov = Ok m ->
  name ∈ names ->
  matching_patterns pats name = Ok (p :: ms) ->
  resolve_element property default name = Ok v ->
  m !! name = Some v.
Proof.
  unfold resolve. generalize (∅ : gmap string T) as m0.
  intros m0 Hm Hin Hsel Hv. revert m0 Hm.
  assert (Hkeep : forall l m0 m1,
             m0 !! name = Some v ->
             foldM (resolve_step pats property default cov) l m0 = Ok m1 ->
             m1 !! name = Some v).
  { intros l m0 m1 H0 Hl.
    apply (foldM_invariant (resolve_step pats property default cov)
             (fun m => m !! name = Some v) l m0 m1); [exact H0| |exact Hl].
    intros m2 x m3 _ H2 Hstep.
    apply resolve_step_Ok in Hstep as [(_ & _ & ->)|(q & qs & w & _ & Hw & ->)];
      [exact H2|].
    destruct (decide (name = x)) as [<-|Hne].
    - rewrite lookup_insert_eq. congruence.
    - now rewrite lookup_insert_ne by congruence. }
  induction names as [|x names IH]; intros m0 Hm; [inversion Hin|].
  rewrite foldM_cons in Hm.
  destruct (resolve_step pats property default cov m0 x) as [m1|e] eqn:Hstep;
    cbn in Hm; [|discriminate].
  apply elem_of_cons in Hin as [<-|Hin]; [|now apply (IH Hin m1)].
  apply (Hkeep names m1); [|exact Hm].
  apply resolve_step_Ok in Hstep as [(Hsel' & _)|(q & qs & w & _ & Hw & ->)];
    [congruence|].
  rewrite lookup_insert_eq. congruence.
Qed.

(** Resolution returns once every element either is left out or has a
    value. *)
Lemma resolve_succeeds names pats property default cov :
  (forall name, name ∈ names ->
     exists ms, matching_patterns pats name = Ok ms /\
       match ms with
       | [] => cov = false
       | _ :: _ => succeeds (resolve_element property default name)
       end) ->
  succeeds (resolve names pats property default cov).
Proof.
  intros Hall. unfold resolve.
  destruct (foldM_succeeds (resolve_step pats property default cov)
              (fun _ => True) names ∅ I) as (m & -> & _); [|exact I].
  intros m0 x Hx _. destruct (Hall x Hx) as (ms & Hms & Hok).
  unfold resolve_step. rewrite Hms. cbn. destruct ms as [|p ms].
  - subst cov. now exists m0.
  - destruct (resolve_element property default x) as [v|e]; [|destruct Hok].
    cbn. now exists (<[x := v]> m0).
Qed.

End Resolution.

(** ** The Go2 collision groups *)

Section Collision.

Import resolver.

Local Open Scope float_scope.
Local Open Scope string_scope.

Lemma foot_regex_total name : exists b, pattern.fullmatch _foot_regex name = Ok b.
Proof.
  unfold pattern.fullmatch.
  destruct (pattern.parse _foot_regex) as [its|] eqn:Hp; [eauto|].
  vm_compute in Hp. discriminate.
Qed.

(** A foot geometry is also matched by the umbrella pattern. *)
Lemma foot_is_collision name :
  pattern.fullmatch _foot_regex name = Ok true ->
  pattern.fullmatch ".*_collision" name = Ok true.
Proof.
  intros H%foot_regex_names.
  repeat (apply elem_of_cons in H as [->|H]; [vm_compute; reflexivity|]).
  inversion H.
Qed.

Lemma collision_regex_total name :
  exists b, pattern.fullmatch ".*_collision" name = Ok b.
Proof.
  unfold pattern.fullmatch.
  destruct (pattern.parse ".*_collision") as [its|] eqn:Hp; [eauto|].
  vm_compute in Hp. discriminate.
Qed.

(** The [condim] of a selected geometry: the foot key comes first, the
    umbrella key catches the rest. *)
Lemma full_collision_condim name foot default :
  pattern.fullmatch ".*_collision" name = Ok true ->
  pattern.fullmatch _foot_regex name = Ok foot ->
  resolve_element (CollisionCfg.condim FULL_COLLISION) default name
  = Ok (if foot then 3%Z else 1%Z).
Proof.
  intros Hcoll Hfoot.
  cbn [FULL_COLLISION CollisionCfg.condim resolve_element first_override].
  rewrite Hfoot. destruct foot; cbn -[pattern.fullmatch]; [reflexivity|].
  now rewrite Hcoll.
Qed.

(** C2. Override keys are checked in declaration order and the first key
    that matches the element gives its value.  With the overrides
    [{"^A$": 1, ".*": 2}] the element ["A"], which both keys match, resolves
    to 1.  Under [FULL_COLLISION] a foot geometry, matched by both keys of
    the [condim] mapping, resolves to [condim] 3: for the element alone and
    in the mapping resolved for any element list that holds it; and the
    [condim] resolution of an element list always returns. *)
Theorem first_matching_override_wins :
  (forall (T : Type) (kvs1 kvs2 : list (string * T)) k v default name,
      Forall (fun kv => pattern.fullmatch kv.1 name = Ok false) kvs1 ->
      pattern.fullmatch k name = Ok true ->
      resolve_element (Patterned (kvs1 ++ (k, v) :: kvs2)) default name = Ok v) /\
  (pattern.fullmatch "^A$" "A" = Ok true /\
   pattern.fullmatch ".*" "A" = Ok true /\
   resolve_element (Patterned [("^A$", 1%Z); (".*", 2%Z)]) None "A" = Ok 1%Z /\
   resolve ["A"] [".*"] (Patterned [("^A$", 1%Z); (".*", 2%Z)]) None false
   = Ok {[ "A" := 1%Z ]}) /\
  (forall name,
      pattern.fullmatch _foot_regex name = Ok true ->
      pattern.fullmatch ".*_collision" name = Ok true /\
      (forall default,
          resolve_element (CollisionCfg.condim FULL_COLLISION) default name = Ok 3%Z) /\
      (forall names default cov m,
          resolve names (CollisionCfg.geom_names_expr FULL_COLLISION)
            (CollisionCfg.condim FULL_COLLISION) default cov = Ok m ->
          name ∈ names ->
          m !! name = Some 3%Z)) /\
  (forall names default,
      succeeds (resolve names (CollisionCfg.geom_names_expr FULL_COLLISION)
                  (CollisionCfg.condim FULL_COLLISION) default false)).
Proof.
  split; [|split; [|split]]; cycle 3.
  { intros names default. apply resolve_succeeds. intros name _.
    destruct (collision_regex_total name) as [b Hb].
    exists (if b then [".*_collision"] else []).
    split; [exact (matching_patterns_single _ _ _ Hb)|].
    destruct b; [|reflexivity].
    destruct (foot_regex_total name) as [foot Hfoot].
    now rewrite (full_collision_condim name foot default Hb Hfoot). }
  - intros T kvs1 kvs2 k v default name Hpre Hk. unfold resolve_element.
    now rewrite (first_override_first kvs1 kvs2 k v name Hpre Hk).
  - repeat split; vm_compute; reflexivity.
  - intros name Hfoot. pose proof (foot_is_collision name Hfoot) as Hcoll.
    assert (Hcondim : forall default,
               resolve_element (CollisionCfg.condim FULL_COLLISION) default name
               = Ok 3%Z).
    { intros default. cbn [FULL_COLLISION CollisionCfg.condim resolve_element first_override].
      rewrite Hfoot. reflexivity. }
    split; [exact Hcoll|split; [exact Hcondim|]].
    intros names default cov m Hm Hin.
    eapply resolve_lookup; [exact Hm|exact Hin| |apply Hcondim].
    cbn [FULL_COLLISION CollisionCfg.geom_names_expr].
    rewrite (matching_patterns_single _ _ _ Hcoll). reflexivity.
Qed.

Lemma first_matching_override_wins_witness :
  resolve_element
    (Patterned ([("^B$", 0%Z)] ++ ("^A$", 1%Z) :: [(".*", 2%Z)])) None "A"
  = Ok 1%Z /\
  pattern.fullmatch ".*_collision" "FL_foot_collision" = Ok true /\
  resolve_element (CollisionCfg.condim FULL_COLLISION) None "FL_foot_collision"
  = Ok 3%Z /\
  ({[ "FL_calf_collision" := 1%Z; "FL_foot_collision" := 3%Z ]} : gmap string Z)
  !! "FL_foot_collision" = Some 3%Z.
Proof.
  assert (Hfoot : pattern.fullmatch _foot_regex "FL_foot_collision" = Ok true)
    by (vm_compute; reflexivity).
  split; [|split; [|split]].
  - apply (proj1 first_matching_override_wins).
    + constructor; [vm_compute; reflexivity|constructor].
    + vm_compute. reflexivity.
  - exact (proj1 (proj1 (proj2 (proj2 first_matching_override_wins)) _ Hfoot)).
  - exact (proj1 (proj2 (proj1 (proj2 (proj2 first_matching_override_wins)) _ Hfoot))
             None).
  - apply (proj2 (proj2 (proj1 (proj2 (proj2 first_matching_override_wins)) _ Hfoot))
             ["FL_calf_collision"; "FL_foot_collision"] None true).
    + vm_compute. reflexivity.
    + right. left.
Defined.

(** C3. Under [FULL_COLLISION] every geometry name matching
    [".*_collision"] is selected and, resolved with the caller's defaults,
    is assigned a [condim], a priority, a friction and a solimp: [condim] 3,
    priority 1, friction [(0.6,)] and solimp [(0.9, 0.95, 0.023)] for a
    foot geometry; [condim] 1 and the defaults of the three other
    properties for any other one, for which the group declares no override.
    ["FL_foot_collision"] receives [condim] 3 and priority 1;
    ["FL_calf_collision"] receives [condim] 1 and no priority override. *)
Theorem full_collision_coverage :
  (forall name (dct dca dc : option Z) (dp : Z) (df ds : list float),
      pattern.fullmatch ".*_collision" name = Ok true ->
      matching_patterns (CollisionCfg.geom_names_expr FULL_COLLISION) name
      = Ok [".*_collision"] /\
      exists (foot : bool) (cfg : ResolvedElementConfig.t),
        pattern.fullmatch _foot_regex name = Ok foot /\
        collision.resolve_geom
          (collision.make_defaults dct dca dc (Some dp) (Some df) (Some ds))
          FULL_COLLISION name
        = Ok (Some cfg) /\
        ResolvedElementConfig.condim cfg = (if foot then 3%Z else 1%Z) /\
        ResolvedElementConfig.priority cfg = (if foot then 1%Z else dp) /\
        ResolvedElementConfig.friction cfg = (if foot then [0.6] else df) /\
        ResolvedElementConfig.solimp cfg
        = (if foot then [0.9; 0.95; 0.023] else ds)) /\
  (forall dflt : collision.defaults,
      exists cfg,
        collision.resolve_geom dflt FULL_COLLISION "FL_foot_collision"
        = Ok (Some cfg) /\
        ResolvedElementConfig.condim cfg = 3%Z /\
        ResolvedElementConfig.priority cfg = 1%Z) /\
  (forall (dct dca dc : option Z) (dp : Z) (df ds : list float),
      exists cfg,
        collision.resolve_geom
          (collision.make_defaults dct dca dc (Some dp) (Some df) (Some ds))
          FULL_COLLISION "FL_calf_collision"
        = Ok (Some cfg) /\
        ResolvedElementConfig.condim cfg = 1%Z /\
        ResolvedElementConfig.priority cfg = dp) /\
  (exists kvs,
      CollisionCfg.priority FULL_COLLISION = Patterned kvs /\
      first_override kvs "FL_calf_collision" = Ok None).
Proof.
  split; [|split; [|split]].
  - intros name dct dca dc dp df ds Hcoll.
    assert (Hsel : matching_patterns (CollisionCfg.geom_names_expr FULL_COLLISION) name
                   = Ok [".*_collision"]).
    { cbn [FULL_COLLISION CollisionCfg.geom_names_expr].
      now rewrite (matching_patterns_single _ _ _ Hcoll). }
    split; [exact Hsel|].
    destruct (foot_regex_total name) as [foot Hfoot]. exists foot.
    unfold collision.resolve_geom. rewrite Hsel.
    cbn [FULL_COLLISION CollisionCfg.contype CollisionCfg.conaffinity
         CollisionCfg.condim CollisionCfg.priority CollisionCfg.friction
         CollisionCfg.solimp collision.default_contype
         collision.default_conaffinity collision.default_condim
         collision.default_priority collision.default_friction
         collision.default_solimp resolve_element first_override
         mbind result_bind].
    rewrite Hfoot. destruct foot; cbn -[pattern.fullmatch].
    + eexists. repeat split.
    + rewrite Hcoll. cbn. eexists. repeat split.
  - intros dflt. eexists. split; [vm_compute; reflexivity|]. split; reflexivity.
  - intros dct dca dc dp df ds. eexists.
    split; [vm_compute; reflexivity|]. split; reflexivity.
  - eexists. split; [reflexivity|vm_compute; reflexivity].
Qed.

Lemma full_collision_coverage_witness :
  matching_patterns (CollisionCfg.geom_names_expr FULL_COLLISION) "FR_hip_collision"
  = Ok [".*_collision"] /\
  exists (foot : bool) (cfg : ResolvedElementConfig.t),
    pattern.fullmatch _foot_regex "FR_hip_collision" = Ok foot /\
    collision.resolve_geom
      (collision.make_defaults None None None (Some 0%Z) (Some [1.0]) (Some [0.9; 0.95; 0.001]))
      FULL_COLLISION "FR_hip_collision"
    = Ok (Some cfg) /\
    ResolvedElementConfig.condim cfg = (if foot then 3%Z else 1%Z) /\
    ResolvedElementConfig.priority cfg = (if foot then 1%Z else 0%Z) /\
    ResolvedElementConfig.friction cfg = (if foot then [0.6] else [1.0]) /\
    ResolvedElementConfig.solimp cfg
    = (if foot then [0.9; 0.95; 0.023] else [0.9; 0.95; 0.001]).
Proof.
  apply (proj1 full_collision_coverage "FR_hip_collision").
  vm_compute. reflexivity.
Defined.

(** C9. For every geometry name matching the foot pattern, [FULL_COLLISION]
    and [FEET_ONLY_COLLISION] both resolve, whatever the caller's defaults,
    to the same [condim] 3, priority 1, friction [(0.6,)] and solimp
    [(0.9, 0.95, 0.023)]. *)
Theorem collision_groups_agree_on_feet name (dflt : collision.defaults) :
  pattern.fullmatch _foot_regex name = Ok true ->
  exists full feet,
    collision.resolve_geom dflt FULL_COLLISION name = Ok (Some full) /\
    collision.resolve_geom dflt FEET_ONLY_COLLISION name = Ok (Some feet) /\
    ResolvedElementConfig.condim full = 3%Z /\
    ResolvedElementConfig.condim feet = 3%Z /\
    ResolvedElementConfig.priority full = 1%Z /\
    ResolvedElementConfig.priority feet = 1%Z /\
    ResolvedElementConfig.friction full = [0.6] /\
    ResolvedElementConfig.friction feet = [0.6] /\
    ResolvedElementConfig.solimp full = [0.9; 0.95; 0.023] /\
    ResolvedElementConfig.solimp feet = [0.9; 0.95; 0.023].
Proof.
  intros H%foot_regex_names.
  repeat (apply elem_of_cons in H as [->|H];
          [eexists _, _; split; [vm_compute; reflexivity|];
           split; [vm_compute; reflexivity|]; repeat split|]).
  inversion H.
Qed.

Lemma collision_groups_agree_on_feet_witness :
  exists full feet,
    collision.resolve_geom
      (collision.make_defaults None None None None None None)
      FULL_COLLISION "RL_foot_collision" = Ok (Some full) /\
    collision.resolve_geom
      (collision.make_defaults None None None None None None)
      FEET_ONLY_COLLISION "RL_foot_collision" = Ok (Some feet) /\
    ResolvedElementConfig.condim full = 3%Z /\
    ResolvedElementConfig.condim feet = 3%Z /\
    ResolvedElementConfig.priority full = 1%Z /\
    ResolvedElementConfig.priority feet = 1%Z /\
    ResolvedElementConfig.friction full = [0.6] /\
    ResolvedElementConfig.friction feet = [0.6] /\
    ResolvedElementConfig.solimp full = [0.9; 0.95; 0.023] /\
    ResolvedElementConfig.solimp feet = [0.9; 0.95; 0.023].
Proof.
  apply (collision_groups_agree_on_feet "RL_foot_collision").
  vm_compute. reflexivity.
Defined.

End Collision.

(** ** The hip action scale against the closed form with the true [2π] *)

Section HipScale.

Local Open Scope R_scope.

(** π to eleven decimals, from the alternating series of
    [π/4 = 2 atan(1/3) + atan(1/7)] cut after its twelfth and thirteenth
    terms. *)
Lemma PI_enclosure : 3.14159265358 < PI < 3.14159265359.
Proof.
  pose proof (PI_2_3_7_ineq 6) as H.
  unfold sum_f_R0, tg_alt, PI_2_3_7_tg, Ratan_seq in H.
  simpl in H. split; lra.
Qed.

(** C4. The scale stored under [".*_hip_joint"] is within a relative
    distance of [1e-9] of [0.25 * 23.7 / stiffness] with
    [stiffness = reflected_inertia * (2π·10)²]: for the true π in real
    arithmetic, and for [math.pi] in float arithmetic, although the module
    computes its stiffness from [3.1415926535]. *)
Theorem hip_action_scale_close :
  exists v : float,
    GO2_ACTION_SCALE !! ".*_hip_joint"%string = Some v /\
    v = (ACTION_SCALE_MULTIPLIER
         * (ElectricActuator.effort_limit HIP_ACTUATOR / STIFFNESS_HIP))%float /\
    Rabs (PyFloat.to_R v - expected_hip_scale) <= 1e-9 * Rabs expected_hip_scale /\
    (abs (v - expected_hip_scale_float) <=? 1e-9 * abs expected_hip_scale_float)%float
    = true.
Proof.
  eexists. split; [vm_compute; reflexivity|].
  split; [vm_compute; reflexivity|].
  split; [|vm_compute; reflexivity].
  unfold expected_hip_scale, PyFloat.to_R.
  match goal with
  | |- context [PyFloat.to_Q ?x] =>
      let q := eval vm_compute in (PyFloat.to_Q x) in
      replace (PyFloat.to_Q x) with q by (vm_compute; reflexivity)
  end.
  match goal with
  | |- context [PyFloat.to_Q ?x] =>
      let q := eval vm_compute in (PyFloat.to_Q x) in
      replace (PyFloat.to_Q x) with q by (vm_compute; reflexivity)
  end.
  unfold Q2R. cbn [Qnum Qden].
  pose proof PI_enclosure as [Hlo Hhi].
  assert (Hlo2 : 3.14159265358 * 3.14159265358 < PI * PI) by nra.
  assert (Hhi2 : PI * PI < 3.14159265359 * 3.14159265359) by nra.
  match goal with
  | |- Rabs (_ - ?x) <= _ => set (X := x)
  end.
  match goal with
  | X := _ / (?h * _) |- _ => set (hR := h) in X
  end.
  assert (HhR : 0 < hR) by (unfold hR; lra).
  assert (HX : X * (PI * PI) * (hR * 400) = 237 / 40).
  { unfold X. field. split; lra. }
  assert (HXpos : 0 < X).
  { unfold X. apply Rdiv_lt_0_compat; [lra|].
    apply Rmult_lt_0_compat; [assumption|]. nra. }
  unfold hR in HX.
  assert (H1 : X * (3.14159265358 * 3.14159265358) < X * (PI * PI))
    by (apply Rmult_lt_compat_l; assumption).
  assert (H2 : X * (PI * PI) < X * (3.14159265359 * 3.14159265359))
    by (apply Rmult_lt_compat_l; assumption).
  rewrite (Rabs_pos_eq X) by lra.
  apply Rabs_le. split; lra.
Qed.

End HipScale.

(** ** More on the action-scale loop *)

Section ActionScaleLoop.

Local Open Scope float_scope.

Implicit Types (scale m : gmap string float) (n : string)
  (actuators : list ActuatorCfg).

Lemma foldM_app {A S : Type} (f : S -> A -> result S) l1 l2 s :
  foldM f (l1 ++ l2) s = s' ← foldM f l1 s; foldM f l2 s'.
Proof.
  revert s. induction l1 as [|x l1 IH]; intros s; [reflexivity|].
  cbn [app]. rewrite !foldM_cons. destruct (f s x) as [s1|e]; cbn; [apply IH|reflexivity].
Qed.

Lemma joint_patterns_app l1 l2 :
  joint_patterns (l1 ++ l2) = joint_patterns l1 ++ joint_patterns l2.
Proof. unfold joint_patterns. apply flat_map_app. Qed.

Lemma elem_of_joint_patterns n actuators :
  n ∈ joint_patterns actuators <->
  exists a, a ∈ actuators /\ n ∈ group_patterns a.
Proof.
  unfold joint_patterns. rewrite list_elem_of_In, in_flat_map.
  split; intros (a & Ha & Hn); exists a; now rewrite ?list_elem_of_In in *.
Qed.

Lemma group_scale_None mult a n : n ∉ group_patterns a -> group_scale mult a n = None.
Proof.
  destruct a as [c|]; cbn; [|reflexivity]. intros Hn. now rewrite decide_False.
Qed.

Lemma last_scale_None mult actuators n :
  n ∉ joint_patterns actuators -> last_scale mult actuators n = None.
Proof.
  induction actuators as [|a rest IH]; [reflexivity|].
  change (joint_patterns (a :: rest)) with (group_patterns a ++ joint_patterns rest).
  rewrite elem_of_app. intros Hn. cbn. rewrite IH by tauto.
  apply group_scale_None. tauto.
Qed.

Lemma last_scale_app mult l1 l2 n :
  last_scale mult (l1 ++ l2) n
  = match last_scale mult l2 n with
    | Some v => Some v
    | None => last_scale mult l1 n
    end.
Proof.
  induction l1 as [|a l1 IH]; cbn.
  - now destruct (last_scale mult l2 n).
  - rewrite IH. now destruct (last_scale mult l2 n).
Qed.

(** What the loop leaves in the dictionary, key by key. *)
Lemma loop_lookup mult actuators scale m :
  foldM (action_scale_group mult) actuators scale = Ok m ->
  forall n,
    m !! n = match last_scale mult actuators n with
             | Some v => Some v
             | None => scale !! n
             end.
Proof.
  revert scale. induction actuators as [|a rest IH]; intros scale Hm n.
  - cbn in Hm. now injection Hm as <-.
  - rewrite foldM_cons in Hm.
    destruct (action_scale_group mult scale a) as [scale1|err] eqn:Ha;
      cbn in Hm; [|discriminate].
    rewrite (IH _ Hm n). cbn [last_scale].
    destruct (last_scale mult rest n) as [v|]; [reflexivity|].
    apply action_scale_group_lookup in Ha as (c & e & -> & He & Hlk).
    rewrite Hlk. cbn. rewrite He.
    now destruct (decide (n ∈ BuiltinPositionActuatorCfg.joint_names_expr c)).
Qed.

Lemma group_error_returns a : group_error a = None <-> group_returns a = true.
Proof.
  destruct a as [c|]; cbn; [|split; discriminate].
  destruct (BuiltinPositionActuatorCfg.effort_limit c); [|split; discriminate].
  destruct (BuiltinPositionActuatorCfg.joint_names_expr c);
    destruct (BuiltinPositionActuatorCfg.stiffness c =? 0); cbn;
    split; (reflexivity || discriminate).
Qed.

Lemma group_error_raises mult scale a e :
  group_error a = Some e -> action_scale_group mult scale a = Err e.
Proof.
  destruct a as [c|]; cbn; [|now intros [= <-]].
  destruct (BuiltinPositionActuatorCfg.effort_limit c) as [x|]; [|now intros [= <-]].
  destruct (BuiltinPositionActuatorCfg.joint_names_expr c) as [|n names]; [discriminate|].
  destruct (BuiltinPositionActuatorCfg.stiffness c =? 0) eqn:Hs; [|discriminate].
  intros [= <-]. now apply assign_loop_zero.
Qed.

Lemma succeeds_Ok {A : Type} (r : result A) : succeeds r -> exists a, r = Ok a.
Proof. destruct r as [a|e]; [eauto|intros []]. Qed.

Lemma loop_returns_effort mult actuators scale m c :
  foldM (action_scale_group mult) actuators scale = Ok m ->
  BuiltinPosition c ∈ actuators ->
  is_Some (BuiltinPositionActuatorCfg.effort_limit c).
Proof.
  intros Hm Hc.
  assert (Hs : succeeds (foldM (action_scale_group mult) actuators scale))
    by now rewrite Hm.
  pose proof (proj1 (action_scale_from_returns _ _ _) Hs _ Hc) as Hr. cbn in Hr.
  destruct (BuiltinPositionActuatorCfg.effort_limit c); [eauto|discriminate].
Qed.

(** With pairwise distinct patterns the scale of a pattern is that of the
    one group that lists it. *)
Lemma last_scale_NoDup mult actuators c e n :
  NoDup (joint_patterns actuators) ->
  BuiltinPosition c ∈ actuators ->
  n ∈ BuiltinPositionActuatorCfg.joint_names_expr c ->
  BuiltinPositionActuatorCfg.effort_limit c = Some e ->
  last_scale mult actuators n
  = Some (mult * (e / BuiltinPositionActuatorCfg.stiffness c)).
Proof.
  intros Hnd Hc Hn He. induction actuators as [|a rest IH]; [inversion Hc|].
  change (joint_patterns (a :: rest)) with (group_patterns a ++ joint_patterns rest) in Hnd.
  apply NoDup_app in Hnd as (_ & Hdisj & Hrest). cbn [last_scale].
  apply elem_of_cons in Hc as [<-|Hc].
  - rewrite last_scale_None by now apply Hdisj.
    cbn. rewrite decide_True by assumption. now rewrite He.
  - now rewrite (IH Hrest Hc).
Qed.

Lemma joint_patterns_Permutation l1 l2 :
  l1 ≡ₚ l2 -> joint_patterns l1 ≡ₚ joint_patterns l2.
Proof.
  unfold joint_patterns. induction 1 as [|a l1 l2 _ IH|a b l|l1 l2 l3 _ IH1 _ IH2]; cbn.
  - reflexivity.
  - now rewrite IH.
  - rewrite !app_assoc. f_equiv. apply Permutation_app_comm.
  - now rewrite IH1.
Qed.

(** X1. A pattern listed by several groups ends with the scale of the last
    group that lists it: later assignments overwrite earlier ones. *)
Theorem action_scale_last_group_wins mult before c after e m n :
  action_scale mult (before ++ BuiltinPosition c :: after) = Ok m ->
  BuiltinPositionActuatorCfg.effort_limit c = Some e ->
  n ∈ BuiltinPositionActuatorCfg.joint_names_expr c ->
  n ∉ joint_patterns after ->
  m !! n = Some (mult * (e / BuiltinPositionActuatorCfg.stiffness c)).
Proof.
  intros Hm He Hn Hafter. unfold action_scale in Hm.
  rewrite (loop_lookup _ _ _ _ Hm n), last_scale_app. cbn [last_scale].
  rewrite (last_scale_None mult after n Hafter). cbn.
  rewrite decide_True by assumption. now rewrite He.
Qed.

Lemma action_scale_last_group_wins_witness :
  ({[ ".*_hip_joint"%string := 0.5 ]} : gmap string float) !! ".*_hip_joint"%string
  = Some (0.25 * (2 / 1)).
Proof.
  apply (action_scale_last_group_wins 0.25
           [BuiltinPosition
              (BuiltinPositionActuatorCfg.make [".*_hip_joint"%string] 4 0 (Some 2) 0)]
           (BuiltinPositionActuatorCfg.make [".*_hip_joint"%string] 1 0 (Some 2) 0)
           []).
  - vm_compute. reflexivity.
  - reflexivity.
  - left.
  - cbn. inversion 1.
Defined.

(** X2. Running the loop over the actuator groups twice in a row gives what
    one run gives: the same dictionary, or the same exception. *)
Theorem action_scale_twice mult actuators :
  action_scale mult (actuators ++ actuators) = action_scale mult actuators.
Proof.
  unfold action_scale. rewrite foldM_app.
  destruct (foldM (action_scale_group mult) actuators ∅) as [m|e] eqn:Hm; [|reflexivity].
  cbn.
  assert (Hs : succeeds (foldM (action_scale_group mult) actuators m)).
  { apply action_scale_from_returns.
    apply (action_scale_from_returns mult actuators ∅). now rewrite Hm. }
  apply succeeds_Ok in Hs as [m' Hm']. rewrite Hm'. f_equal.
  apply map_eq. intros n.
  rewrite (loop_lookup _ _ _ _ Hm' n), (loop_lookup _ _ _ _ Hm n).
  now destruct (last_scale mult actuators n).
Qed.

(** X3. When no joint pattern occurs twice, the order of the actuator
    groups does not matter: every reordering yields the same dictionary. *)
Theorem action_scale_order_irrelevant mult actuators actuators' m :
  actuators ≡ₚ actuators' ->
  NoDup (joint_patterns actuators) ->
  action_scale mult actuators = Ok m ->
  action_scale mult actuators' = Ok m.
Proof.
  intros Hp Hnd Hm. unfold action_scale in *.
  assert (Hs : succeeds (foldM (action_scale_group mult) actuators' ∅)).
  { apply action_scale_from_returns. intros a Ha. rewrite <- Hp in Ha.
    revert a Ha. apply (action_scale_from_returns mult actuators ∅). now rewrite Hm. }
  apply succeeds_Ok in Hs as [m' Hm']. rewrite Hm'. f_equal.
  assert (Hnd' : NoDup (joint_patterns actuators'))
    by now rewrite <- (joint_patterns_Permutation _ _ Hp).
  apply map_eq. intros n.
  rewrite (loop_lookup _ _ _ _ Hm' n), (loop_lookup _ _ _ _ Hm n), lookup_empty.
  destruct (decide (n ∈ joint_patterns actuators)) as [Hin|Hnin].
  - apply elem_of_joint_patterns in Hin as ([c|] & Ha & Hn); [|inversion Hn].
    destruct (loop_returns_effort _ _ _ _ _ Hm Ha) as [e He].
    rewrite (last_scale_NoDup mult actuators c e n Hnd Ha Hn He).
    rewrite Hp in Ha.
    now rewrite (last_scale_NoDup mult actuators' c e n Hnd' Ha Hn He).
  - rewrite (last_scale_None mult actuators n Hnin).
    rewrite (joint_patterns_Permutation _ _ Hp) in Hnin.
    now rewrite (last_scale_None mult actuators' n Hnin).
Qed.

Lemma action_scale_order_irrelevant_witness :
  action_scale ACTION_SCALE_MULTIPLIER
    [BuiltinPosition GO2_KNEE_ACTUATOR_CFG; BuiltinPosition GO2_HIP_ACTUATOR_CFG]
  = Ok GO2_ACTION_SCALE.
Proof.
  apply (action_scale_order_irrelevant ACTION_SCALE_MULTIPLIER
           (EntityArticulationInfoCfg.actuators GO2_ARTICULATION)).
  - apply perm_swap.
  - vm_compute. repeat (constructor; [set_solver|]). constructor.
  - vm_compute. reflexivity.
Defined.

(** X4. The loop stops at the first group that makes its body raise and
    raises that group's exception, whatever the multiplier and the later
    groups: [AssertionError] for an entry that is not a
    [BuiltinPositionActuatorCfg] or has no effort limit (even when its
    stiffness is zero), [ZeroDivisionError] for a zero stiffness with a
    joint pattern to assign; with no such group it returns. *)
Theorem action_scale_first_error mult actuators :
  match first_error actuators with
  | Some e => action_scale mult actuators = Err e
  | None => succeeds (action_scale mult actuators)
  end.
Proof.
  unfold action_scale. generalize (∅ : gmap string float) as scale.
  induction actuators as [|a rest IH]; intros scale; [exact I|].
  rewrite foldM_cons. cbn [first_error].
  destruct (group_error a) as [e|] eqn:Ha.
  - now rewrite (group_error_raises mult scale a e Ha).
  - apply group_error_returns, (action_scale_group_returns mult scale) in Ha.
    destruct (action_scale_group mult scale a) as [scale1|err]; [|destruct Ha].
    cbn. apply IH.
Qed.

(** X5. Extending the list of actuator groups drops no key and leaves
    alone what the loop has stored for the patterns that the new groups do
    not list. *)
Theorem action_scale_extend mult actuators more m m' :
  action_scale mult actuators = Ok m ->
  action_scale mult (actuators ++ more) = Ok m' ->
  dom m ⊆ dom m' /\
  forall n, n ∉ joint_patterns more -> m' !! n = m !! n.
Proof.
  unfold action_scale. rewrite foldM_app. intros ->. cbn. intros Hm'.
  assert (Hframe : forall n, n ∉ joint_patterns more -> m' !! n = m !! n).
  { intros n Hn. rewrite (loop_lookup _ _ _ _ Hm' n).
    now rewrite (last_scale_None mult more n Hn). }
  split; [|exact Hframe].
  rewrite (action_scale_from_dom _ _ _ _ Hm'). set_solver.
Qed.

Lemma action_scale_extend_witness :
  dom ({[ ".*_hip_joint"%string := 0.3727530387083568;
          ".*_thigh_joint"%string := 0.3727530387083568 ]} : gmap string float)
  ⊆ dom GO2_ACTION_SCALE /\
  forall n,
    n ∉ joint_patterns [BuiltinPosition GO2_KNEE_ACTUATOR_CFG] ->
    GO2_ACTION_SCALE !! n
    = ({[ ".*_hip_joint"%string := 0.3727530387083568;
          ".*_thigh_joint"%string := 0.3727530387083568 ]} : gmap string float) !! n.
Proof.
  apply (action_scale_extend ACTION_SCALE_MULTIPLIER
           [BuiltinPosition GO2_HIP_ACTUATOR_CFG]
           [BuiltinPosition GO2_KNEE_ACTUATOR_CFG]);
    vm_compute; reflexivity.
Defined.

(** X6. The dictionary has one entry per distinct joint pattern: patterns
    repeated within a group or across groups are counted once. *)
Theorem action_scale_size mult actuators m :
  action_scale mult actuators = Ok m ->
  size m = length (remove_dups (joint_patterns actuators)).
Proof.
  intros Hm. unfold action_scale in Hm.
  rewrite <- size_dom, (action_scale_from_dom _ _ _ _ Hm), dom_empty_L, union_empty_l_L.
  rewrite <- (size_list_to_set (C := gset string)) by apply NoDup_remove_dups.
  f_equal. apply set_eq. intros n.
  now rewrite !elem_of_list_to_set, elem_of_remove_dups.
Qed.

Lemma action_scale_size_witness :
  size GO2_ACTION_SCALE
  = length (remove_dups
              (joint_patterns (EntityArticulationInfoCfg.actuators GO2_ARTICULATION))).
Proof.
  apply (action_scale_size ACTION_SCALE_MULTIPLIER). vm_compute. reflexivity.
Defined.

Lemma div_nan x : x / nan = nan.
Proof.
  apply Prim2SF_inj. rewrite div_spec. change (Prim2SF nan) with S754_nan.
  now destruct (Prim2SF x).
Qed.

Lemma mul_nan x : x * nan = nan.
Proof.
  apply Prim2SF_inj. rewrite mul_spec. change (Prim2SF nan) with S754_nan.
  now destruct (Prim2SF x).
Qed.

Lemma eqb_zero x : (x =? 0) = true <-> x = PrimFloat.zero \/ x = PrimFloat.neg_zero.
Proof.
  split.
  - rewrite FloatAxioms.eqb_spec. change (Prim2SF 0) with (S754_zero false).
    destruct (Prim2SF x) as [[|]|[|]| |[|] mx ex] eqn:Hx; cbn;
      try discriminate; intros _.
    + right. now apply Prim2SF_inj.
    + left. now apply Prim2SF_inj.
  - now intros [-> | ->].
Qed.

(** X7. A stiffness that is not a number is not rejected: the group is
    processed without any exception and every one of its joint patterns
    receives NaN as its scale. *)
Theorem action_scale_nan_stiffness mult scale c e :
  BuiltinPositionActuatorCfg.effort_limit c = Some e ->
  BuiltinPositionActuatorCfg.stiffness c = nan ->
  exists scale',
    action_scale_group mult scale (BuiltinPosition c) = Ok scale' /\
    forall n,
      n ∈ BuiltinPositionActuatorCfg.joint_names_expr c -> scale' !! n = Some nan.
Proof.
  intros He Hs.
  assert (Hr : succeeds (action_scale_group mult scale (BuiltinPosition c))).
  { apply action_scale_group_returns. cbn. now rewrite He, Hs. }
  apply succeeds_Ok in Hr as [scale' Hscale']. exists scale'. split; [assumption|].
  intros n Hn.
  apply action_scale_group_lookup in Hscale' as (c' & e' & [= <-] & He' & Hlk).
  rewrite Hlk, decide_True by assumption. now rewrite Hs, div_nan, mul_nan.
Qed.

Lemma action_scale_nan_stiffness_witness :
  exists scale',
    action_scale_group ACTION_SCALE_MULTIPLIER ∅
      (BuiltinPosition
         (BuiltinPositionActuatorCfg.make
            [".*_calf_joint"%string] nan DAMPING_KNEE (Some 45.43) 0.016105248))
    = Ok scale' /\
    forall n, n ∈ [".*_calf_joint"%string] -> scale' !! n = Some nan.
Proof.
  apply (action_scale_nan_stiffness ACTION_SCALE_MULTIPLIER ∅
           (BuiltinPositionActuatorCfg.make
              [".*_calf_joint"%string] nan DAMPING_KNEE (Some 45.43) 0.016105248)
           45.43);
    reflexivity.
Defined.

(** X8. A group makes the loop body raise [ZeroDivisionError] exactly when
    it has an effort limit, at least one joint pattern, and a stiffness that
    is one of the two zeros, [0.0] or [-0.0]. *)
Theorem action_scale_group_zero_division mult scale c :
  action_scale_group mult scale (BuiltinPosition c) = Err ZeroDivisionError <->
  is_Some (BuiltinPositionActuatorCfg.effort_limit c) /\
  BuiltinPositionActuatorCfg.joint_names_expr c <> [] /\
  (BuiltinPositionActuatorCfg.stiffness c = PrimFloat.zero \/
   BuiltinPositionActuatorCfg.stiffness c = PrimFloat.neg_zero).
Proof.
  rewrite <- eqb_zero. split.
  - intros Hg.
    destruct (group_error (BuiltinPosition c)) as [err|] eqn:He.
    + rewrite (group_error_raises mult scale _ _ He) in Hg. injection Hg as ->.
      cbn in He.
      destruct (BuiltinPositionActuatorCfg.effort_limit c) as [e|]; [|discriminate].
      destruct (BuiltinPositionActuatorCfg.joint_names_expr c); [discriminate|].
      destruct (BuiltinPositionActuatorCfg.stiffness c =? 0); [|discriminate].
      split; [eauto|]. split; [discriminate|reflexivity].
    + apply group_error_returns, (action_scale_group_returns mult scale) in He.
      now rewrite Hg in He.
  - intros ([e He] & Hnames & Hs). apply group_error_raises. cbn.
    rewrite He, Hs. now destruct (BuiltinPositionActuatorCfg.joint_names_expr c).
Qed.

End ActionScaleLoop.

(** ** The contract of the action-scale loop *)

Section ActionScaleContract.

Local Open Scope float_scope.

Lemma negative_not_zero x : (x <? 0) = true -> (x =? 0) = false.
Proof.
  rewrite ltb_spec, FloatAxioms.eqb_spec. change (Prim2SF 0) with (S754_zero false).
  destruct (Prim2SF x) as [[|]|[|]| |[|] mx ex]; cbn; congruence.
Qed.

(** A loop that returns has stored a scale under every joint pattern of
    every group. *)
Lemma action_scale_stores mult actuators m c n :
  action_scale mult actuators = Ok m ->
  BuiltinPosition c ∈ actuators ->
  n ∈ BuiltinPositionActuatorCfg.joint_names_expr c ->
  is_Some (m !! n).
Proof.
  intros Hm Hc Hn. apply elem_of_dom. unfold action_scale in Hm.
  rewrite (action_scale_from_dom _ _ _ _ Hm), dom_empty_L, union_empty_l_L.
  apply elem_of_list_to_set, elem_of_joint_patterns.
  now exists (BuiltinPosition c).
Qed.

(** The groups before the first offending one are processed, and then the
    offending group's exception ends the loop. *)
Lemma action_scale_raises_at mult before a after e :
  (forall b, b ∈ before -> group_returns b = true) ->
  group_error a = Some e ->
  action_scale mult (before ++ a :: after) = Err e.
Proof.
  intros Hbefore Ha. unfold action_scale. rewrite foldM_app.
  assert (Hs : succeeds (foldM (action_scale_group mult) before ∅))
    by now apply action_scale_from_returns.
  apply succeeds_Ok in Hs as [m1 ->]. cbn [mbind result_bind]. rewrite foldM_cons.
  now rewrite (group_error_raises mult m1 a e Ha).
Qed.

(** C8 (amended). Where the loop returns, every joint pattern of every
    actuator group holds [multiplier * (effort_limit / stiffness)] of a
    group that lists it, the group's own when no pattern occurs twice, and
    nothing else is stored.  The loop fails at the first group that has no
    effort limit or is not a [BuiltinPositionActuatorCfg] (with
    [AssertionError]) or that has a zero stiffness and at least one joint
    pattern (with [ZeroDivisionError]), and only then; groups with a
    negative stiffness are processed. *)
Theorem action_scale_contract mult actuators :
  (forall m,
      action_scale mult actuators = Ok m ->
      (forall c n,
          BuiltinPosition c ∈ actuators ->
          n ∈ BuiltinPositionActuatorCfg.joint_names_expr c ->
          exists c' e',
            BuiltinPosition c' ∈ actuators /\
            n ∈ BuiltinPositionActuatorCfg.joint_names_expr c' /\
            BuiltinPositionActuatorCfg.effort_limit c' = Some e' /\
            m !! n = Some (mult * (e' / BuiltinPositionActuatorCfg.stiffness c'))) /\
      (NoDup (joint_patterns actuators) ->
       forall c n,
         BuiltinPosition c ∈ actuators ->
         n ∈ BuiltinPositionActuatorCfg.joint_names_expr c ->
         exists e,
           BuiltinPositionActuatorCfg.effort_limit c = Some e /\
           m !! n = Some (mult * (e / BuiltinPositionActuatorCfg.stiffness c))) /\
      (forall n, n ∉ joint_patterns actuators -> m !! n = None)) /\
  (forall before a after,
      actuators = before ++ a :: after ->
      (forall b, b ∈ before -> group_returns b = true) ->
      (a = OtherActuator \/
       (exists c, a = BuiltinPosition c /\
                  BuiltinPositionActuatorCfg.effort_limit c = None) ->
       action_scale mult actuators = Err AssertionError) /\
      ((exists c e, a = BuiltinPosition c /\
                    BuiltinPositionActuatorCfg.effort_limit c = Some e /\
                    (BuiltinPositionActuatorCfg.stiffness c =? 0) = true /\
                    BuiltinPositionActuatorCfg.joint_names_expr c <> []) ->
       action_scale mult actuators = Err ZeroDivisionError)) /\
  (raises (action_scale mult actuators)
   <-> exists a, a ∈ actuators /\ group_returns a = false) /\
  (forall e, action_scale mult actuators = Err e ->
             e = AssertionError \/ e = ZeroDivisionError) /\
  ((forall a, a ∈ actuators ->
      exists c e, a = BuiltinPosition c /\
                  BuiltinPositionActuatorCfg.effort_limit c = Some e /\
                  (BuiltinPositionActuatorCfg.stiffness c <? 0) = true) ->
   succeeds (action_scale mult actuators)).
Proof.
  split; [|split; [|split; [|split]]].
  - intros m Hm. split; [|split].
    + intros c n Hc Hn.
      destruct (action_scale_stores _ _ _ _ _ Hm Hc Hn) as [v Hv].
      destruct (action_scale_stored_values _ _ _ _ _ Hm Hv) as (c' & e' & ? & ? & ? & ->).
      now exists c', e'.
    + intros Hnd c n Hc Hn. unfold action_scale in Hm.
      destruct (loop_returns_effort _ _ _ _ _ Hm Hc) as [e He]. exists e.
      split; [exact He|].
      rewrite (loop_lookup _ _ _ _ Hm n).
      now rewrite (last_scale_NoDup mult actuators c e n Hnd Hc Hn He).
    + intros n Hn. unfold action_scale in Hm.
      rewrite (loop_lookup _ _ _ _ Hm n), (last_scale_None mult actuators n Hn).
      apply lookup_empty.
  - intros before a after -> Hbefore. split.
    + intros Ha. apply action_scale_raises_at; [assumption|].
      destruct Ha as [-> | (c & -> & He)]; cbn; [reflexivity|now rewrite He].
    + intros (c & e & -> & He & Hs & Hnames).
      apply action_scale_raises_at; [assumption|]. cbn. rewrite He, Hs.
      now destruct (BuiltinPositionActuatorCfg.joint_names_expr c).
  - apply action_scale_raises_iff.
  - intros e He.
    assert (Hfirst : first_error actuators = Some e -> e = AssertionError \/ e = ZeroDivisionError).
    { clear He. induction actuators as [|a rest IH]; [discriminate|]. cbn [first_error].
      destruct (group_error a) as [err|] eqn:Ha; [|exact IH].
      intros [= <-]. destruct a as [c|]; cbn in Ha; [|injection Ha as <-; now left].
      destruct (BuiltinPositionActuatorCfg.effort_limit c); [|injection Ha as <-; now left].
      destruct (BuiltinPositionActuatorCfg.joint_names_expr c); [discriminate|].
      destruct (BuiltinPositionActuatorCfg.stiffness c =? 0); [|discriminate].
      injection Ha as <-. now right. }
    apply Hfirst. clear Hfirst. unfold action_scale in He. revert He.
    generalize (∅ : gmap string float) as scale.
    induction actuators as [|a rest IH]; intros scale He; [discriminate|].
    rewrite foldM_cons in He. cbn [first_error].
    destruct (group_error a) as [err|] eqn:Ha.
    + rewrite (group_error_raises mult scale a err Ha) in He. cbn in He. congruence.
    + apply group_error_returns, (action_scale_group_returns mult scale) in Ha.
      destruct (action_scale_group mult scale a) as [scale1|err']; [|destruct Ha].
      cbn in He. now apply (IH scale1).
  - intros Hall. unfold action_scale. apply action_scale_from_returns.
    intros a Ha. destruct (Hall a Ha) as (c & e & -> & He & Hs). cbn.
    now rewrite He, (negative_not_zero _ Hs).
Qed.

Lemma action_scale_contract_witness :
  (exists e,
      BuiltinPositionActuatorCfg.effort_limit GO2_KNEE_ACTUATOR_CFG = Some e /\
      GO2_ACTION_SCALE !! ".*_calf_joint"%string
      = Some (ACTION_SCALE_MULTIPLIER
              * (e / BuiltinPositionActuatorCfg.stiffness GO2_KNEE_ACTUATOR_CFG))) /\
  GO2_ACTION_SCALE !! ".*_foot_joint"%string = None /\
  action_scale ACTION_SCALE_MULTIPLIER
    ([BuiltinPosition GO2_HIP_ACTUATOR_CFG]
     ++ BuiltinPosition
          (BuiltinPositionActuatorCfg.make
             [".*_calf_joint"%string] STIFFNESS_KNEE DAMPING_KNEE None 0.016105248)
        :: [])
  = Err AssertionError /\
  action_scale ACTION_SCALE_MULTIPLIER
    ([BuiltinPosition GO2_HIP_ACTUATOR_CFG]
     ++ BuiltinPosition
          (BuiltinPositionActuatorCfg.make
             [".*_calf_joint"%string] 0 DAMPING_KNEE (Some 45.43) 0.016105248)
        :: [])
  = Err ZeroDivisionError /\
  succeeds (action_scale ACTION_SCALE_MULTIPLIER
              [BuiltinPosition
                 (BuiltinPositionActuatorCfg.make
                    [".*_hip_joint"%string] (-1) 0 (Some 23.7) 0)]).
Proof.
  assert (Hgo2 : action_scale ACTION_SCALE_MULTIPLIER
                   (EntityArticulationInfoCfg.actuators GO2_ARTICULATION)
                 = Ok GO2_ACTION_SCALE) by (vm_compute; reflexivity).
  assert (Hhip : forall b, b ∈ [BuiltinPosition GO2_HIP_ACTUATOR_CFG] ->
                           group_returns b = true).
  { intros b ->%list_elem_of_singleton. vm_compute. reflexivity. }
  split; [|split; [|split; [|split]]].
  - apply (proj1 (proj2 (proj1 (action_scale_contract _ _) _ Hgo2))).
    + vm_compute. repeat (constructor; [set_solver|]). constructor.
    + right. left.
    + left.
  - apply (proj2 (proj2 (proj1 (action_scale_contract _ _) _ Hgo2))).
    vm_compute. set_solver.
  - apply (proj1 (proj1 (proj2 (action_scale_contract _ _)) _ _ _ eq_refl Hhip)).
    right. eexists. split; reflexivity.
  - apply (proj2 (proj1 (proj2 (action_scale_contract _ _)) _ _ _ eq_refl Hhip)).
    eexists _, _. split; [reflexivity|]. split; [reflexivity|].
    split; [reflexivity|discriminate].
  - apply (proj2 (proj2 (proj2 (proj2 (action_scale_contract _ _))))).
    intros a ->%list_elem_of_singleton. eexists _, _.
    split; [reflexivity|]. split; reflexivity.
Defined.

End ActionScaleContract.
